(* ===================================================================== *)
(* durak: Turkish syllabification (python/durak/syllabification.py)       *)
(*                                                                         *)
(* A shallow embedding of the Syllabifier class and the properties of its *)
(* boundary engine, case restorer and structure annotator.                *)
(* ===================================================================== *)

From Equations Require Import Equations.
From Stdlib Require Import Ascii String.
From Stdlib Require Import List Arith Lia NArith Bool.
Import ListNotations.

(* --------------------------------------------------------------------- *)
(* Python strings: sequences of Unicode code points                       *)
(* --------------------------------------------------------------------- *)

(** A Python [str] is a sequence of code points; a `character' is a string
    of length one, here the code point itself. *)
Definition char := N.
Definition str := list char.

Definition chr_eqb (a b : char) : bool := N.eqb a b.

Fixpoint str_eqb (a b : str) : bool :=
  match a, b with
  | [], [] => true
  | x :: a', y :: b' => chr_eqb x y && str_eqb a' b'
  | _, _ => false
  end.

(** [c in s] for a character [c] and a set (or string) of characters. *)
Definition char_in (c : char) (s : str) : bool := existsb (chr_eqb c) s.

(** Literals of the source file are UTF-8 text.  [utf8] decodes the bytes
    of a Rocq string literal into code points (sequences of one, two and
    three bytes, which covers every literal of the module). *)
Fixpoint utf8_bytes (bs : list N) : str :=
  match bs with
  | [] => []
  | b :: r =>
      if (b <? 128)%N then b :: utf8_bytes r
      else if (b <? 224)%N then
        match r with
        | b1 :: r1 => ((b - 192) * 64 + (b1 - 128))%N :: utf8_bytes r1
        | [] => [b]
        end
      else
        match r with
        | b1 :: b2 :: r2 =>
            ((b - 224) * 4096 + (b1 - 128) * 64 + (b2 - 128))%N :: utf8_bytes r2
        | _ => [b]
        end
  end.

Definition utf8 (s : string) : str :=
  utf8_bytes (map N_of_ascii (list_ascii_of_string s)).

(* --------------------------------------------------------------------- *)
(* Character classifier                                                   *)
(* --------------------------------------------------------------------- *)

(** VOWELS = frozenset("aeıioöuüâîû") *)
Definition VOWELS : str := Eval vm_compute in utf8 "aeıioöuüâîû".

(** CONSONANTS = frozenset("bcçdfgğhjklmnprsştvyzqwx") *)
Definition CONSONANTS : str := Eval vm_compute in utf8 "bcçdfgğhjklmnprsştvyzqwx".

Definition is_vowel (c : char) : bool := char_in c VOWELS.
Definition is_consonant (c : char) : bool := char_in c CONSONANTS.

(* --------------------------------------------------------------------- *)
(* Boundary engine                                                        *)
(* --------------------------------------------------------------------- *)

(** The table of [_is_valid_onset]. *)
Definition valid_onsets : list str := Eval vm_compute in
  map utf8 ["tr"; "pr"; "kr"; "gr"; "br"; "dr"; "fr";
            "pl"; "kl"; "bl"; "fl"; "gl"]%string.

(** [cluster in valid_onsets] *)
Definition _is_valid_onset (cluster : str) : bool :=
  existsb (str_eqb cluster) valid_onsets.

(** The counting loop of [_find_break_point]: the number of consecutive
    consonants at the start of [remaining]; the first character that is
    not a consonant ends the loop. *)
Fixpoint consonant_count (remaining : str) : nat :=
  match remaining with
  | [] => 0
  | c :: r => if is_consonant c then S (consonant_count r) else 0
  end.

(** [_find_break_point(current_syllable, remaining)]: how many characters
    of [remaining] go to the current syllable before the break. *)
Definition _find_break_point (current_syllable remaining : str) : nat :=
  match remaining with
  | [] => 0
  | _ =>
      let n := consonant_count remaining in
      if n =? 0 then 0
      else if n =? 1 then 0
      else if n =? 2 then
        let cluster := firstn 2 remaining in
        if _is_valid_onset cluster then 0 else 1
      else if 3 <=? n then 1
      else 0
  end.

(** The body of the [while i < len(word)] loop of [_segment], for the
    character [c = word[i]] and [next_chars = word[i+1:]]: it returns by how
    much [i] is advanced on top of the final [i += 1], the accumulator and
    the syllables.  [i + 1 < len(word)] says that [next_chars] is not
    empty. *)
Definition segment_body (c : char) (next_chars current : str)
    (syllables : list str) : nat * str * list str :=
  let current := current ++ [c] in
  if is_vowel c then
    match next_chars with
    | _ :: _ =>
        let break_point := _find_break_point current next_chars in
        match break_point with
        | 0 => (0, [], syllables ++ [current])
        | S _ =>
            (break_point, [],
             syllables ++ [current ++ firstn break_point next_chars])
        end
    | [] => (0, [], syllables ++ [current])
    end
  else (0, current, syllables).

(** The loop itself; [rest] is [word[i:]].  It returns the syllables and
    the accumulator at the exit of the loop. *)
Equations? segment_loop (rest : str) (current : str) (syllables : list str)
  : list str * str by wf (length rest) lt :=
  segment_loop [] current syllables := (syllables, current);
  segment_loop (c :: next_chars) current syllables
    with segment_body c next_chars current syllables => {
    | (k, current', syllables') :=
        segment_loop (skipn k next_chars) current' syllables' }.
Proof.
  pose proof (length_skipn k next_chars). simpl. lia.
Qed.

(** [_segment(word)] *)
Definition _segment (word : str) : list str :=
  let '(syllables, current) := segment_loop word [] [] in
  match current with
  | [] => syllables
  | _ =>
      match syllables with
      | [] => syllables ++ [current]
      | _ => removelast syllables ++ [last syllables [] ++ current]
      end
  end.

(* --------------------------------------------------------------------- *)
(* The primitives of the Python runtime the module calls                  *)
(* --------------------------------------------------------------------- *)

(** The Unicode operations the module takes from the Python runtime:
    [unicodedata.normalize("NFC", s)], [s.lower()], and, on a character,
    [c.isupper()] and [c.upper()] (a string: upper-casing one character can
    give several). *)
Class Unicode := {
  normalize_NFC : str -> str;
  str_lower : str -> str;
  chr_isupper : char -> bool;
  chr_upper : char -> str
}.

(** [separator.join(syllables)] *)
Fixpoint join (separator : str) (syllables : list str) : str :=
  match syllables with
  | [] => []
  | [x] => x
  | x :: r => x ++ separator ++ join separator r
  end.

(** [s.startswith(sep)] *)
Fixpoint starts_with (sep s : str) : bool :=
  match sep, s with
  | [], _ => true
  | x :: sep', y :: s' => chr_eqb x y && starts_with sep' s'
  | _ :: _, [] => false
  end.

(** The scan of [s.split(sep)] for a non-empty [sep]: the string is cut at
    the occurrences of [sep] found from left to right, an occurrence being
    looked for only after the end of the previous one.  [skip] counts the
    characters of the occurrence just found that are still to be passed,
    [piece] is the piece being collected. *)
Fixpoint split_scan (sep : str) (skip : nat) (piece s : str) : list str :=
  match s with
  | [] => [piece]
  | c :: s' =>
      match skip with
      | S k => split_scan sep k piece s'
      | 0 =>
          if starts_with sep s
          then piece :: split_scan sep (length sep - 1) [] s'
          else split_scan sep 0 (piece ++ [c]) s'
      end
  end.

(** [s.split(sep)]; [None] is the [ValueError] of an empty separator. *)
Definition split (s sep : str) : option (list str) :=
  match sep with
  | [] => None
  | _ :: _ => Some (split_scan sep 0 [] s)
  end.

(* --------------------------------------------------------------------- *)
(* Case restorer, facade and structure annotator                          *)
(* --------------------------------------------------------------------- *)

(** What [syllabify] returns: a list of syllables or a joined string. *)
Inductive value : Type :=
| VList (syllables : list str)
| VStr (joined : str).

(** The truth value of [separator] in [if separator]: [None] and the empty
    string are false. *)
Definition truthy (separator : option str) : bool :=
  match separator with
  | Some (_ :: _) => true
  | _ => false
  end.

(** The dataclass [SyllableInfo]; its fields are [Info.word],
    [Info.syllables], [Info.count] and [Info.structure]. *)
Module Info.
Record SyllableInfo : Type := {
  word : str;
  syllables : list str;
  count : nat;
  structure : list str
}.
End Info.

Definition letter_V : char := Eval vm_compute in hd 0%N (utf8 "V").
Definition letter_C : char := Eval vm_compute in hd 0%N (utf8 "C").

(** The inner loop of [analyze] over the characters of [syl.lower()]. *)
Fixpoint struct_loop (chars struct : str) : str :=
  match chars with
  | [] => struct
  | c :: r =>
      if is_vowel c then struct_loop r (struct ++ [letter_V])
      else if is_consonant c then struct_loop r (struct ++ [letter_C])
      else struct_loop r struct
  end.

Section Syllabifier.
Context {U : Unicode}.

(** The inner loop of [_restore_case] over the characters of one
    syllable.  [None] is the [IndexError] of [original[char_index]]. *)
Fixpoint restore_syllable (original syllable restored : str)
    (char_index : nat) : option (str * nat) :=
  match syllable with
  | [] => Some (restored, char_index)
  | c :: syllable' =>
      if char_index <? length original then
        match nth_error original char_index with
        | None => None
        | Some o =>
            if chr_isupper o
            then restore_syllable original syllable'
                   (restored ++ chr_upper c) (S char_index)
            else restore_syllable original syllable'
                   (restored ++ [c]) (S char_index)
        end
      else restore_syllable original syllable' (restored ++ [c]) char_index
  end.

(** The outer loop of [_restore_case]. *)
Fixpoint restore_loop (original : str) (syllables result : list str)
    (char_index : nat) : option (list str) :=
  match syllables with
  | [] => Some result
  | syllable :: syllables' =>
      match restore_syllable original syllable [] char_index with
      | None => None
      | Some (restored, char_index') =>
          restore_loop original syllables' (result ++ [restored]) char_index'
      end
  end.

(** [_restore_case(syllables, original)] *)
Definition _restore_case (syllables : list str) (original : str)
  : option (list str) :=
  restore_loop original syllables [] 0.

(** [syllabify(word, separator)]; [None] is a raised exception. *)
Definition syllabify (word : str) (separator : option str) : option value :=
  match word with
  | [] => Some (if truthy separator then VStr [] else VList [])
  | _ :: _ =>
      let word := normalize_NFC word in
      let original_word := word in
      let word_lower := str_lower word in
      let syllables := _segment word_lower in
      match _restore_case syllables original_word with
      | None => None
      | Some syllables =>
          match separator with
          | Some sep => Some (VStr (join sep syllables))
          | None => Some (VList syllables)
          end
      end
  end.

(** [count(word)] *)
Definition count (word : str) : option nat :=
  match syllabify word None with
  | None => None
  | Some (VList syllables) => Some (length syllables)
  | Some (VStr _) => Some 0
  end.

(** [analyze(word)] *)
Definition analyze (word : str) : option Info.SyllableInfo :=
  match syllabify word None with
  | None => None
  | Some v =>
      match
        match v with
        | VStr s => split s (utf8 "-")
        | VList l => Some l
        end
      with
      | None => None
      | Some syllables =>
          let structure :=
            map (fun syl => struct_loop (str_lower syl) []) syllables in
          Some {| Info.word := word; Info.syllables := syllables;
                  Info.count := length syllables;
                  Info.structure := structure |}
      end
  end.

End Syllabifier.

(* --------------------------------------------------------------------- *)
(* The Unicode tables of CPython, for Turkish text                        *)
(* --------------------------------------------------------------------- *)

(** A fragment of the Unicode data CPython works with, used to run the
    module on concrete words.  It agrees with CPython on the strings over
    Basic Latin, the Latin-1 Supplement, the Turkish letters U+011E, U+011F,
    U+0130, U+0131, U+015E, U+015F, the digraphs U+01C4..U+01C6, the capital
    sharp s U+1E9E, and the combining marks of the decomposed Turkish
    letters, when a mark follows its base letter as in [compose_pair] below
    (or U+0307 follows [i], as in the lower case of U+0130).  Other code
    points are left as they are. *)
Module PyUnicode.
Local Open Scope N_scope.

Definition in_range (lo hi c : N) : bool := ((lo <=? c) && (c <=? hi))%N.

(** Full lower-case mapping of one code point. *)
Definition lower1 (c : char) : str :=
  if in_range 65 90 c then [c + 32]                          (* A-Z *)
  else if in_range 192 214 c || in_range 216 222 c then [c + 32]
  else if c =? 286 then [287]                                (* U+011E *)
  else if c =? 304 then [105; 775]                           (* U+0130 *)
  else if c =? 350 then [351]                                (* U+015E *)
  else if (c =? 452) || (c =? 453) then [454]                (* U+01C4/5 *)
  else if c =? 7838 then [223]                               (* U+1E9E *)
  else [c].

(** Full upper-case mapping of one code point. *)
Definition upper1 (c : char) : str :=
  if in_range 97 122 c then [c - 32]                         (* a-z *)
  else if c =? 181 then [924]                                (* U+00B5 *)
  else if c =? 223 then [83; 83]                             (* U+00DF *)
  else if in_range 224 246 c || in_range 248 254 c then [c - 32]
  else if c =? 255 then [376]                                (* U+00FF *)
  else if c =? 287 then [286]                                (* U+011F *)
  else if c =? 305 then [73]                                 (* U+0131 *)
  else if c =? 351 then [350]                                (* U+015F *)
  else if (c =? 453) || (c =? 454) then [452]                (* U+01C5/6 *)
  else [c].

(** The code points with the property Uppercase. *)
Definition isupper1 (c : char) : bool :=
  in_range 65 90 c || in_range 192 214 c || in_range 216 222 c
  || (c =? 286) || (c =? 304) || (c =? 350) || (c =? 452) || (c =? 7838).

(** Canonical composition of a base letter and a combining mark, for the
    letters of the Turkish alphabet: circumflex U+0302, breve U+0306,
    dot above U+0307, diaeresis U+0308, cedilla U+0327. *)
Definition compose_pair (b m : char) : option char :=
  if m =? 770 then
    if b =? 97 then Some 226 else if b =? 65 then Some 194
    else if b =? 105 then Some 238 else if b =? 73 then Some 206
    else if b =? 117 then Some 251 else if b =? 85 then Some 219
    else None
  else if m =? 774 then
    if b =? 103 then Some 287 else if b =? 71 then Some 286 else None
  else if m =? 775 then
    if b =? 73 then Some 304 else None
  else if m =? 776 then
    if b =? 111 then Some 246 else if b =? 79 then Some 214
    else if b =? 117 then Some 252 else if b =? 85 then Some 220
    else None
  else if m =? 807 then
    if b =? 99 then Some 231 else if b =? 67 then Some 199
    else if b =? 115 then Some 351 else if b =? 83 then Some 350
    else None
  else None.

(** NFC: each base letter takes the mark that follows it. *)
Fixpoint nfc_from (b : char) (s : str) : str :=
  match s with
  | [] => [b]
  | m :: r =>
      match compose_pair b m with
      | Some p => nfc_from p r
      | None => b :: nfc_from m r
      end
  end.

Definition nfc (s : str) : str :=
  match s with
  | [] => []
  | b :: r => nfc_from b r
  end.

Definition lower (s : str) : str := flat_map lower1 s.

End PyUnicode.

#[export] Instance py_unicode : Unicode := {|
  normalize_NFC := PyUnicode.nfc;
  str_lower := PyUnicode.lower;
  chr_isupper := PyUnicode.isupper1;
  chr_upper := PyUnicode.upper1
|}.

(* --------------------------------------------------------------------- *)
(* Vocabulary of the properties                                           *)
(* --------------------------------------------------------------------- *)

(** The number of vowels of a word. *)
Definition count_vowels (w : str) : nat := length (filter is_vowel w).

(** A classified character: a vowel or a consonant; the others are
    neutral. *)
Definition is_letter (c : char) : bool := is_vowel c || is_consonant c.

(** The letter of the shape code of a classified character. *)
Definition shape_letter (c : char) : char :=
  if is_vowel c then letter_V else letter_C.

(** [run] is the run of consonants at the start of [run ++ tail]: it is
    made of consonants and [tail] is empty or starts with a character that
    is not a consonant (a vowel or a neutral character). *)
Definition consonant_run (run tail : str) : Prop :=
  Forall (fun c => is_consonant c = true) run /\
  match tail with
  | [] => True
  | c :: _ => is_consonant c = false
  end.

(** The relation between a character of the original word and the
    character at the same place of its lower case under which the case
    restorer gives the original character back. *)
Definition case_restores {U : Unicode} (o l : char) : Prop :=
  if chr_isupper o then chr_upper l = [o] else l = o.

Definition case_reversible {U : Unicode} (original lowered : str) : Prop :=
  Forall2 case_restores original lowered.

(** [sep in s]: some suffix of [s] starts with [sep]. *)
Fixpoint occurs (sep s : str) : bool :=
  starts_with sep s ||
  match s with
  | [] => false
  | _ :: s' => occurs sep s'
  end.

(** An occurrence of [sep] in [s ++ tail] that starts inside [s]. *)
Fixpoint occurs_before (sep s tail : str) : bool :=
  match s with
  | [] => false
  | _ :: s' => starts_with sep (s ++ tail) || occurs_before sep s' tail
  end.

(** [syllabify(w) == expected] under [py_unicode], for literals. *)
Definition syllabify_is (w : string) (expected : list string) : Prop :=
  syllabify (U := py_unicode) (utf8 w) None = Some (VList (map utf8 expected)).

(** The separator round trip of a word:
    [syllabify(W, sep).split(sep) == syllabify(W)]. *)
Definition separator_round_trip {U : Unicode} (W sep : str) : Prop :=
  exists syls joined,
    syllabify W None = Some (VList syls)
    /\ syllabify W (Some sep) = Some (VStr joined)
    /\ split joined sep = Some syls.

(** [sep] occurs inside no syllable of [syllabify(W)]. *)
Definition in_no_syllable {U : Unicode} (W sep : str) : Prop :=
  exists syls,
    syllabify W None = Some (VList syls)
    /\ Forall (fun s => occurs sep s = false) syls.

(** A syllable that ends with a vowel, a text that starts with a
    consonant. *)
Definition ends_with_vowel (s : str) : Prop :=
  exists p v, s = p ++ [v] /\ is_vowel v = true.

Definition starts_with_consonant (s : str) : Prop :=
  exists c r, s = c :: r /\ is_consonant c = true.

(** Every syllable of [syls], read with the text that follows it up to the
    end of [after], ends with a vowel or is followed by a consonant. *)
Fixpoint boundaries_ok (syls : list str) (after : str) : Prop :=
  match syls with
  | [] => True
  | s :: r =>
      (ends_with_vowel s \/ starts_with_consonant (concat r ++ after))
      /\ boundaries_ok r after
  end.

(** A syllable closed by the loop: an onset without a vowel, the vowel,
    and a coda of at most one consonant. *)
Definition closed_syllable (s : str) : Prop :=
  exists onset v coda,
    s = onset ++ v :: coda
    /\ count_vowels onset = 0
    /\ is_vowel v = true
    /\ (coda = [] \/ exists c, coda = [c] /\ is_consonant c = true).

(** The number of occurrences of a character in a string. *)
Definition count_char (c : char) (s : str) : nat :=
  length (filter (chr_eqb c) s).

(* ===================================================================== *)
(* Properties                                                             *)
(* ===================================================================== *)

Ltac case_ifs :=
  repeat match goal with
         | |- context [if ?b then _ else _] => destruct b
         end.

(* --------------------------------------------------------------------- *)
(* Strings and the classifier                                             *)
(* --------------------------------------------------------------------- *)

Lemma chr_eqb_eq a b : chr_eqb a b = true <-> a = b.
Proof. apply N.eqb_eq. Qed.

Lemma str_eqb_eq a b : str_eqb a b = true <-> a = b.
Proof.
  revert b; induction a as [|x a IH]; intros [|y b]; simpl;
    try (split; [discriminate | discriminate]); try tauto.
  rewrite andb_true_iff, chr_eqb_eq, IH.
  split; [intros [-> ->]; reflexivity | intros E; inversion E; auto].
Qed.

Lemma char_in_In c s : char_in c s = true <-> In c s.
Proof.
  unfold char_in. rewrite existsb_exists. split.
  - intros (x & Hx & E). apply chr_eqb_eq in E. subst. exact Hx.
  - intros H. exists c. split; [exact H | apply chr_eqb_eq; reflexivity].
Qed.

(** The two sets of the classifier are disjoint. *)
Lemma consonant_not_vowel c : is_consonant c = true -> is_vowel c = false.
Proof.
  unfold is_consonant. rewrite char_in_In. unfold CONSONANTS. simpl.
  intros H.
  repeat (destruct H as [<- | H]; [reflexivity |]).
  destruct H.
Qed.

(** The prefix counted by [consonant_count] is made of consonants, hence
    holds no vowel. *)
Lemma firstn_consonants_no_vowel k s :
  k <= consonant_count s -> filter is_vowel (firstn k s) = [].
Proof.
  revert k; induction s as [|c s IH]; intros k Hk; simpl in *.
  - destruct k; reflexivity.
  - destruct k as [|k]; [reflexivity |].
    destruct (is_consonant c) eqn:Ec; [| lia].
    simpl. rewrite (consonant_not_vowel _ Ec). apply IH. lia.
Qed.

Lemma find_break_point_le current remaining :
  _find_break_point current remaining <= consonant_count remaining
  /\ _find_break_point current remaining <= 1.
Proof.
  unfold _find_break_point. destruct remaining as [|c r]; [simpl; lia |].
  set (n := consonant_count (c :: r)).
  destruct (n =? 0) eqn:E0; [lia |].
  destruct (n =? 1) eqn:E1; [lia |].
  apply Nat.eqb_neq in E0, E1.
  destruct (n =? 2); [destruct (_is_valid_onset _); lia |].
  destruct (3 <=? n); lia.
Qed.

(* --------------------------------------------------------------------- *)
(* The loop of the boundary engine                                        *)
(* --------------------------------------------------------------------- *)

Lemma segment_loop_cons c next_chars current syllables :
  segment_loop (c :: next_chars) current syllables =
  let '(k, current', syllables') :=
    segment_body c next_chars current syllables in
  segment_loop (skipn k next_chars) current' syllables'.
Proof.
  simp segment_loop.
  destruct (segment_body c next_chars current syllables) as [[k cu] sy].
  reflexivity.
Qed.

(** A character that is not a vowel joins the accumulator. *)
Lemma segment_loop_other c next_chars current syllables :
  is_vowel c = false ->
  segment_loop (c :: next_chars) current syllables =
  segment_loop next_chars (current ++ [c]) syllables.
Proof.
  intros Hc. rewrite segment_loop_cons. unfold segment_body. rewrite Hc.
  reflexivity.
Qed.

(** A vowel closes a syllable, which takes [break_point] more characters. *)
Lemma segment_loop_vowel c next_chars current syllables :
  is_vowel c = true ->
  let break_point := _find_break_point (current ++ [c]) next_chars in
  segment_loop (c :: next_chars) current syllables =
  segment_loop (skipn break_point next_chars) []
    (syllables ++ [(current ++ [c]) ++ firstn break_point next_chars]).
Proof.
  intros Hc bp. rewrite segment_loop_cons. unfold segment_body. rewrite Hc.
  destruct next_chars as [|d r].
  - subst bp. simpl. rewrite app_nil_r. reflexivity.
  - fold bp. destruct bp as [|k] eqn:E.
    + simpl. rewrite app_nil_r. reflexivity.
    + reflexivity.
Qed.

(** Induction along the iterations of the loop. *)
Lemma segment_loop_induction
  (P : str -> str -> list str -> list str * str -> Prop) :
  (forall current syllables, P [] current syllables (syllables, current)) ->
  (forall c next_chars current syllables,
     is_vowel c = false ->
     P next_chars (current ++ [c]) syllables
       (segment_loop next_chars (current ++ [c]) syllables) ->
     P (c :: next_chars) current syllables
       (segment_loop next_chars (current ++ [c]) syllables)) ->
  (forall c next_chars current syllables k,
     is_vowel c = true ->
     k = _find_break_point (current ++ [c]) next_chars ->
     let emitted := syllables ++ [(current ++ [c]) ++ firstn k next_chars] in
     P (skipn k next_chars) [] emitted
       (segment_loop (skipn k next_chars) [] emitted) ->
     P (c :: next_chars) current syllables
       (segment_loop (skipn k next_chars) [] emitted)) ->
  forall rest current syllables,
    P rest current syllables (segment_loop rest current syllables).
Proof.
  intros Hnil Hother Hvowel rest.
  remember (length rest) as n eqn:Hn.
  revert rest Hn.
  induction n as [n IH] using lt_wf_ind.
  intros [|c next_chars] Hn current syllables.
  - rewrite segment_loop_equation_1. apply Hnil.
  - simpl in Hn. destruct (is_vowel c) eqn:Hc.
    + rewrite (segment_loop_vowel _ _ _ _ Hc). cbv zeta.
      apply Hvowel; [exact Hc | reflexivity |].
      apply (IH (length (skipn (_find_break_point (current ++ [c]) next_chars)
                               next_chars))); [| reflexivity].
      rewrite length_skipn. lia.
    + rewrite (segment_loop_other _ _ _ _ Hc).
      apply Hother; [exact Hc |].
      apply (IH (length next_chars)); [lia | reflexivity].
Qed.

(** The loop only inserts boundaries. *)
Lemma segment_loop_concat rest current syllables :
  let '(syllables', current') := segment_loop rest current syllables in
  concat syllables' ++ current' = concat syllables ++ current ++ rest.
Proof.
  apply (segment_loop_induction
    (fun rest current syllables out =>
       let '(syllables', current') := out in
       concat syllables' ++ current' = concat syllables ++ current ++ rest)).
  - intros cu sy. rewrite app_nil_r. reflexivity.
  - intros c nx cu sy _. destruct (segment_loop _ _ _) as [sy' cu'].
    intros ->. rewrite <- app_assoc. reflexivity.
  - intros c nx cu sy k _ _ emitted. subst emitted.
    destruct (segment_loop _ _ _) as [sy' cu'].
    intros ->. rewrite concat_app. simpl. rewrite app_nil_r.
    rewrite <- !app_assoc. simpl. rewrite firstn_skipn. reflexivity.
Qed.

(** One syllable is emitted for each vowel. *)
Lemma segment_loop_length rest current syllables :
  length (fst (segment_loop rest current syllables)) =
  length syllables + count_vowels rest.
Proof.
  apply (segment_loop_induction
    (fun rest current syllables out =>
       length (fst out) = length syllables + count_vowels rest)).
  - intros cu sy. unfold count_vowels. simpl. lia.
  - intros c nx cu sy Hc ->. unfold count_vowels. simpl. rewrite Hc.
    reflexivity.
  - intros c nx cu sy k Hc Hk emitted. subst emitted. intros ->.
    rewrite length_app. simpl. unfold count_vowels. simpl. rewrite Hc. simpl.
    rewrite <- (firstn_skipn k nx) at 2.
    rewrite filter_app, firstn_consonants_no_vowel.
    + rewrite app_nil_l. unfold str, char in *. lia.
    + subst k. apply find_break_point_le.
Qed.

(** No emitted syllable is empty. *)
Lemma segment_loop_nonempty rest current syllables :
  Forall (fun s => s <> []) syllables ->
  Forall (fun s => s <> []) (fst (segment_loop rest current syllables)).
Proof.
  apply (segment_loop_induction
    (fun rest current syllables out =>
       Forall (fun s => s <> []) syllables ->
       Forall (fun s => s <> []) (fst out))).
  - intros cu sy H. exact H.
  - intros c nx cu sy _ IH H. exact (IH H).
  - intros c nx cu sy k _ _ emitted IH H. apply IH. subst emitted.
    apply Forall_app. split; [exact H |].
    constructor; [| constructor].
    intros E. apply app_eq_nil in E. destruct E as [E _].
    apply app_eq_nil in E. destruct E as [_ E]. discriminate.
Qed.

(** Without a vowel the loop emits nothing. *)
Lemma segment_loop_no_vowel rest current syllables :
  count_vowels rest = 0 ->
  segment_loop rest current syllables = (syllables, current ++ rest).
Proof.
  revert current. induction rest as [|c r IH]; intros cu H.
  - rewrite segment_loop_equation_1, app_nil_r. reflexivity.
  - unfold count_vowels in H. simpl in H.
    destruct (is_vowel c) eqn:Hc; [discriminate |].
    rewrite (segment_loop_other _ _ _ _ Hc), IH by exact H.
    rewrite <- app_assoc. reflexivity.
Qed.

(* --------------------------------------------------------------------- *)
(* [_segment]                                                             *)
(* --------------------------------------------------------------------- *)

Lemma segment_nil : _segment [] = [].
Proof. reflexivity. Qed.

(** The boundary engine only inserts boundaries. *)
Lemma segment_concat w : concat (_segment w) = w.
Proof.
  unfold _segment.
  pose proof (segment_loop_concat w [] []) as H.
  destruct (segment_loop w [] []) as [sy cu]. simpl in H.
  destruct cu as [|x cu].
  - rewrite app_nil_r in H. exact H.
  - destruct sy as [|s sy].
    + simpl in *. rewrite app_nil_r. exact H.
    + assert (E : s :: sy = removelast (s :: sy) ++ [last (s :: sy) []])
        by (apply app_removelast_last; discriminate).
      remember (removelast (s :: sy)) as rl.
      remember (last (s :: sy) []) as la.
      rewrite E in H. rewrite <- H, !concat_app. simpl.
      rewrite !app_nil_r, app_assoc. reflexivity.
Qed.

(** With a vowel in the word there are as many syllables as vowels: the
    leftover joins the last syllable. *)
Lemma segment_length w :
  1 <= count_vowels w -> length (_segment w) = count_vowels w.
Proof.
  intros Hv. unfold _segment.
  pose proof (segment_loop_length w [] []) as H.
  destruct (segment_loop w [] []) as [sy cu]. simpl in H.
  destruct cu as [|x cu]; [exact H |].
  destruct sy as [|s sy]; [simpl in H; lia |].
  assert (E : s :: sy = removelast (s :: sy) ++ [last (s :: sy) []])
    by (apply app_removelast_last; discriminate).
  remember (removelast (s :: sy)) as rl.
  remember (last (s :: sy) []) as la.
  rewrite E in H. rewrite <- H, !length_app. reflexivity.
Qed.

Lemma Forall_removelast {A} (P : A -> Prop) (l : list A) :
  Forall P l -> Forall P (removelast l).
Proof.
  induction 1 as [|x l Hx Hl IH]; [constructor |].
  simpl. destruct l; [constructor |]. constructor; assumption.
Qed.

(** No syllable of the boundary engine is empty. *)
Lemma segment_nonempty w : Forall (fun s => s <> []) (_segment w).
Proof.
  unfold _segment.
  assert (H : Forall (fun s : str => s <> []) (fst (segment_loop w [] [])))
    by (apply segment_loop_nonempty; constructor).
  destruct (segment_loop w [] []) as [sy cu]. simpl in H.
  destruct cu as [|x cu]; [exact H |].
  destruct sy as [|s sy].
  - constructor; [discriminate | constructor].
  - apply Forall_app. split; [apply Forall_removelast; exact H |].
    constructor; [| constructor].
    intros E. apply app_eq_nil in E. destruct E as [_ E]. discriminate.
Qed.

(** A non-empty word without a vowel is one syllable. *)
Lemma segment_no_vowel w :
  w <> [] -> count_vowels w = 0 -> _segment w = [w].
Proof.
  intros Hw Hv. unfold _segment.
  rewrite segment_loop_no_vowel by exact Hv. simpl.
  destruct w; [contradiction | reflexivity].
Qed.

(* --------------------------------------------------------------------- *)
(* [_restore_case]                                                        *)
(* --------------------------------------------------------------------- *)

Lemma skipn_cons_inv {A} (l : list A) n x t :
  skipn n l = x :: t ->
  n < length l /\ nth_error l n = Some x /\ skipn (S n) l = t.
Proof.
  revert l; induction n as [|n IH]; intros [|y l] H; simpl in H;
    try discriminate.
  - inversion H; subst. simpl. repeat split. lia.
  - destruct (IH _ H) as (H1 & H2 & H3). simpl. repeat split; auto. lia.
Qed.

Section CaseRestorer.
Context {U : Unicode}.

(** The guard of [_restore_case] keeps [original[char_index]] in range:
    the inner loop raises nothing. *)
Lemma restore_syllable_total original syllable restored char_index :
  exists r i,
    restore_syllable original syllable restored char_index = Some (r, i).
Proof.
  revert restored char_index.
  induction syllable as [|c s IH]; intros restored i; simpl.
  - eauto.
  - destruct (i <? length original) eqn:Hi; [| apply IH].
    apply Nat.ltb_lt in Hi.
    destruct (nth_error original i) as [o|] eqn:Ho.
    + destruct (chr_isupper o); apply IH.
    + apply nth_error_None in Ho. lia.
Qed.

(** The outer loop raises nothing and keeps the number of syllables. *)
Lemma restore_loop_total original syllables result char_index :
  exists out,
    restore_loop original syllables result char_index = Some out
    /\ length out = length result + length syllables.
Proof.
  revert result char_index.
  induction syllables as [|s l IH]; intros result i; simpl.
  - exists result. split; [reflexivity | lia].
  - destruct (restore_syllable_total original s [] i) as (r & i' & ->).
    destruct (IH (result ++ [r]) i') as (out & -> & Hlen).
    exists out. split; [reflexivity |].
    rewrite Hlen, length_app. simpl. lia.
Qed.

Lemma restore_case_total syllables original :
  exists out,
    _restore_case syllables original = Some out
    /\ length out = length syllables.
Proof.
  destruct (restore_loop_total original syllables [] 0) as (out & H & L).
  exists out. split; [exact H | exact L].
Qed.

(** When upper-casing a character never gives the empty string, every
    character of a syllable leaves at least one character. *)
Lemma restore_syllable_grows original syllable restored char_index r i :
  (forall c, chr_upper c <> []) ->
  restore_syllable original syllable restored char_index = Some (r, i) ->
  length restored + length syllable <= length r.
Proof.
  intros Hup. revert restored char_index.
  induction syllable as [|c s IH]; intros restored ci; simpl.
  - intros E. inversion E; subst. lia.
  - destruct (ci <? length original).
    + destruct (nth_error original ci) as [o|]; [| discriminate].
      destruct (chr_isupper o); intros E; apply IH in E;
        rewrite length_app in E; simpl in E; [| lia].
      specialize (Hup c). destruct (chr_upper c); [contradiction |].
      simpl in E. lia.
    + intros E. apply IH in E. rewrite length_app in E. simpl in E. lia.
Qed.

Lemma restore_loop_nonempty original syllables result char_index out :
  (forall c, chr_upper c <> []) ->
  Forall (fun s => s <> []) syllables ->
  Forall (fun s => s <> []) result ->
  restore_loop original syllables result char_index = Some out ->
  Forall (fun s => s <> []) out.
Proof.
  intros Hup Hs. revert result char_index.
  induction Hs as [|s l Hne Hl IH]; intros result ci Hr; simpl.
  - intros E. inversion E; subst. exact Hr.
  - destruct (restore_syllable original s [] ci) as [[r i]|] eqn:Er;
      [| discriminate].
    apply IH. apply Forall_app. split; [exact Hr |].
    constructor; [| constructor].
    apply restore_syllable_grows in Er; [| exact Hup].
    destruct s; [contradiction |]. destruct r; [simpl in Er; lia |].
    discriminate.
Qed.

Lemma restore_syllable_reversible syllable original restored char_index more :
  case_reversible (skipn char_index original) (syllable ++ more) ->
  restore_syllable original syllable restored char_index =
  Some (restored ++ firstn (length syllable) (skipn char_index original),
        char_index + length syllable).
Proof.
  revert restored char_index.
  induction syllable as [|c s IH]; intros restored ci H; simpl.
  - rewrite app_nil_r, Nat.add_0_r. reflexivity.
  - simpl in H. inversion H as [|o l t t' Hol Ht Eo El]; subst.
    symmetry in Eo. destruct (skipn_cons_inv _ _ _ _ Eo) as (Hlt & Hnth & Hsk).
    apply Nat.ltb_lt in Hlt. rewrite Hlt, Hnth.
    rewrite <- Hsk in Ht.
    unfold case_restores in Hol.
    specialize (IH (restored ++ [o]) (S ci) Ht).
    rewrite Hsk in IH. simpl.
    replace (ci + S (length s)) with (S ci + length s) by lia.
    destruct (chr_isupper o).
    + rewrite Hol, IH, <- app_assoc. reflexivity.
    + subst c. rewrite IH, <- app_assoc. reflexivity.
Qed.

Lemma restore_loop_reversible syllables original result char_index :
  case_reversible (skipn char_index original) (concat syllables) ->
  exists out,
    restore_loop original syllables result char_index = Some (result ++ out)
    /\ concat out = skipn char_index original
    /\ map (@length char) out = map (@length char) syllables.
Proof.
  revert result char_index.
  induction syllables as [|s l IH]; intros result ci H; simpl in *.
  - inversion H. exists []. rewrite app_nil_r. auto.
  - rewrite (restore_syllable_reversible s original [] ci (concat l) H).
    simpl.
    pose proof H as H'.
    apply Forall2_app_inv_r in H'.
    destruct H' as (l1 & l2 & H1 & H2 & E).
    pose proof (Forall2_length H1) as L1.
    assert (Hsk : skipn (ci + length s) original = l2).
    { rewrite Nat.add_comm, <- skipn_skipn, E, <- L1.
      rewrite skipn_app, skipn_all, Nat.sub_diag. reflexivity. }
    rewrite <- Hsk in H2.
    destruct (IH (result ++ [firstn (length s) (skipn ci original)])
                 (ci + length s) H2) as (out & Hr & Hc & Hm).
    exists (firstn (length s) (skipn ci original) :: out).
    split; [| split].
    + etransitivity; [exact Hr |]. rewrite <- app_assoc. reflexivity.
    + simpl. rewrite Hc, Hsk, E, <- L1.
      rewrite firstn_app, firstn_all, Nat.sub_diag. simpl.
      rewrite app_nil_r. reflexivity.
    + simpl. rewrite Hm. f_equal. rewrite E, <- L1.
      rewrite firstn_app, firstn_all, Nat.sub_diag. simpl.
      rewrite app_nil_r. reflexivity.
Qed.

(** On a case-reversible word the restorer gives the word back, cut at
    the boundaries of the lower-case syllables. *)
Lemma restore_case_reversible syllables original :
  case_reversible original (concat syllables) ->
  exists out,
    _restore_case syllables original = Some out
    /\ concat out = original
    /\ map (@length char) out = map (@length char) syllables.
Proof.
  intros H.
  destruct (restore_loop_reversible syllables original [] 0 H)
    as (out & E & Hc & Hm).
  exists out. auto.
Qed.

End CaseRestorer.

(* --------------------------------------------------------------------- *)
(* [join] and [split]                                                     *)
(* --------------------------------------------------------------------- *)

Lemma starts_with_app sep x r :
  length sep <= length x -> starts_with sep (x ++ r) = starts_with sep x.
Proof.
  revert x; induction sep as [|a sep IH]; intros [|b x] H; simpl in *;
    try reflexivity; try lia.
  rewrite IH by lia. reflexivity.
Qed.

Lemma starts_with_self sep r : starts_with sep (sep ++ r) = true.
Proof.
  induction sep as [|a sep IH]; simpl; [reflexivity |].
  rewrite IH. unfold chr_eqb. rewrite N.eqb_refl. reflexivity.
Qed.

(** The characters of a separator that was found are passed over. *)
Lemma split_scan_skip sep piece t rest :
  split_scan sep (length t) piece (t ++ rest) = split_scan sep 0 piece rest.
Proof.
  induction t as [|c t IH]; simpl; [reflexivity | exact IH].
Qed.

(** A piece that no occurrence of [sep] starts in ends at the separator
    that follows it. *)
Lemma split_scan_piece sep piece s rest :
  sep <> [] ->
  occurs_before sep s sep = false ->
  split_scan sep 0 piece (s ++ sep ++ rest) =
  (piece ++ s) :: split_scan sep 0 [] rest.
Proof.
  intros Hsep. revert piece.
  induction s as [|c s IH]; intros piece H.
  - destruct sep as [|a sep']; [contradiction |].
    rewrite app_nil_r.
    change ([] ++ (a :: sep') ++ rest) with (a :: (sep' ++ rest)).
    cbn [split_scan].
    change (a :: sep' ++ rest) with ((a :: sep') ++ rest).
    rewrite starts_with_self.
    replace (length (a :: sep') - 1) with (length sep') by (simpl; lia).
    rewrite split_scan_skip. reflexivity.
  - simpl in H. apply orb_false_iff in H. destruct H as [H0 H1].
    change ((c :: s) ++ sep ++ rest) with (c :: (s ++ sep ++ rest)).
    cbn [split_scan].
    replace (c :: s ++ sep ++ rest) with ((c :: s ++ sep) ++ rest)
      by (simpl; rewrite <- app_assoc; reflexivity).
    rewrite starts_with_app by (simpl; rewrite length_app; lia).
    rewrite H0, IH by exact H1.
    rewrite <- app_assoc. reflexivity.
Qed.

(** A piece without an occurrence of [sep] is the last one. *)
Lemma split_scan_last sep piece s :
  occurs sep s = false -> split_scan sep 0 piece s = [piece ++ s].
Proof.
  revert piece. induction s as [|c s IH]; intros piece H.
  - simpl. rewrite app_nil_r. reflexivity.
  - cbn [occurs] in H. apply orb_false_iff in H. destruct H as [H0 H1].
    cbn [split_scan]. rewrite H0, IH by exact H1.
    rewrite <- app_assoc. reflexivity.
Qed.

(** Splitting a joined list gives the list back when the separator is found
    at the joints only. *)
Lemma split_join sep l :
  sep <> [] -> l <> [] ->
  Forall (fun s => occurs_before sep s sep = false) (removelast l) ->
  occurs sep (last l []) = false ->
  split (join sep l) sep = Some l.
Proof.
  intros Hsep Hl Hin Hlast.
  unfold split. destruct sep as [|a sep'] eqn:Es; [contradiction |].
  rewrite <- Es in *. f_equal. clear Es.
  destruct l as [|x l]; [contradiction |]. clear Hl.
  revert x Hin Hlast.
  induction l as [|y l IH]; intros x Hin Hlast.
  - simpl in *. rewrite split_scan_last by exact Hlast. reflexivity.
  - change (join sep (x :: y :: l)) with (x ++ sep ++ join sep (y :: l)).
    change (removelast (x :: y :: l)) with (x :: removelast (y :: l)) in Hin.
    change (last (x :: y :: l) []) with (last (y :: l) []) in Hlast.
    inversion Hin as [|? ? Hx Hrest]; subst.
    rewrite split_scan_piece by assumption.
    rewrite IH by assumption. reflexivity.
Qed.

(* --------------------------------------------------------------------- *)
(* Shape codes                                                            *)
(* --------------------------------------------------------------------- *)

Lemma struct_loop_spec chars struct :
  struct_loop chars struct =
  struct ++ map shape_letter (filter is_letter chars).
Proof.
  revert struct. induction chars as [|c r IH]; intros struct; simpl.
  - rewrite app_nil_r. reflexivity.
  - unfold is_letter, shape_letter.
    destruct (is_vowel c) eqn:Ev; simpl.
    + rewrite IH, Ev, <- app_assoc. reflexivity.
    + destruct (is_consonant c) eqn:Ec; simpl.
      * rewrite IH, Ev, <- app_assoc. reflexivity.
      * apply IH.
Qed.

(* --------------------------------------------------------------------- *)
(* Consonant runs and the break after a vowel                             *)
(* --------------------------------------------------------------------- *)

Lemma consonant_count_run run tail :
  consonant_run run tail -> consonant_count (run ++ tail) = length run.
Proof.
  intros [Hrun Htail]. induction Hrun as [|c r Hc Hr IH]; simpl.
  - destruct tail as [|d t]; [reflexivity |]. simpl. rewrite Htail.
    reflexivity.
  - rewrite Hc, IH. reflexivity.
Qed.


Lemma find_break_point_run current_syllable run tail :
  consonant_run run tail ->
  _find_break_point current_syllable (run ++ tail) =
  match length run with
  | 0 | 1 => 0
  | 2 => if _is_valid_onset (firstn 2 (run ++ tail)) then 0 else 1
  | _ => 1
  end.
Proof.
  intros H. unfold _find_break_point.
  rewrite (consonant_count_run _ _ H).
  destruct (run ++ tail) as [|x l] eqn:E.
  - destruct run; [reflexivity | discriminate].
  - destruct (length run) as [|[|[|n]]]; reflexivity.
Qed.

Lemma is_valid_onset_In cluster :
  _is_valid_onset cluster = true <-> In cluster valid_onsets.
Proof.
  unfold _is_valid_onset. rewrite existsb_exists. split.
  - intros (x & Hx & E). apply str_eqb_eq in E. subst. exact Hx.
  - intros H. exists cluster. split; [exact H | apply str_eqb_eq; reflexivity].
Qed.

(* --------------------------------------------------------------------- *)
(* The facade                                                             *)
(* --------------------------------------------------------------------- *)

Section Facade.
Context {U : Unicode}.

(** On a non-empty word, [syllabify] restores the case of the syllables
    of the lower-cased NFC form, and joins them if asked to. *)
Lemma syllabify_nonempty w separator :
  w <> [] ->
  exists syls,
    _restore_case (_segment (str_lower (normalize_NFC w)))
      (normalize_NFC w) = Some syls
    /\ length syls = length (_segment (str_lower (normalize_NFC w)))
    /\ syllabify w separator =
       Some match separator with
            | Some sep => VStr (join sep syls)
            | None => VList syls
            end.
Proof.
  intros Hw.
  destruct (restore_case_total (_segment (str_lower (normalize_NFC w)))
              (normalize_NFC w)) as (syls & E & L).
  exists syls. split; [exact E |]. split; [exact L |].
  unfold syllabify. destruct w as [|c w]; [contradiction |].
  cbv zeta. rewrite E. destruct separator; reflexivity.
Qed.

(** Without a separator the result is a list. *)
Lemma syllabify_list w :
  exists syls, syllabify w None = Some (VList syls).
Proof.
  destruct w as [|c w].
  - exists []. reflexivity.
  - destruct (syllabify_nonempty (c :: w) None) as (syls & _ & _ & E);
      [discriminate |].
    exists syls. exact E.
Qed.

End Facade.

(* --------------------------------------------------------------------- *)
(* The instance [py_unicode]                                              *)
(* --------------------------------------------------------------------- *)

Lemma py_upper_nonempty c : chr_upper (Unicode := py_unicode) c <> [].
Proof.
  simpl. unfold PyUnicode.upper1. case_ifs; discriminate.
Qed.

Lemma py_lower1_letters c :
  length (filter is_letter (PyUnicode.lower1 c)) <= 1.
Proof.
  unfold PyUnicode.lower1.
  repeat match goal with
         | |- context [if ?b then _ else _] => destruct b
         | |- length (filter is_letter [?x]) <= 1 =>
             simpl; destruct (is_letter x); simpl; lia
         end.
  vm_compute. lia.
Qed.

(** Lower-casing yields at most one classified letter for each character:
    the one code point with a longer lower case, U+0130, gives [i] and the
    neutral U+0307. *)
Lemma py_lower_letters s :
  length (filter is_letter (str_lower (Unicode := py_unicode) s)) <= length s.
Proof.
  simpl. unfold PyUnicode.lower.
  induction s as [|c s IH]; simpl; [lia |].
  rewrite filter_app, length_app.
  pose proof (py_lower1_letters c). lia.
Qed.

(* --------------------------------------------------------------------- *)
(* The cases of tests/test_syllabification.py                             *)
(* --------------------------------------------------------------------- *)

Local Open Scope string_scope.

Example test_syllabify_basic :
  syllabify_is "ev" ["ev"] /\ syllabify_is "göz" ["göz"]
  /\ syllabify_is "kitap" ["ki"; "tap"] /\ syllabify_is "okul" ["o"; "kul"]
  /\ syllabify_is "gözlük" ["göz"; "lük"]
  /\ syllabify_is "merhaba" ["mer"; "ha"; "ba"]
  /\ syllabify_is "karmaşık" ["kar"; "ma"; "şık"]
  /\ syllabify_is "öğrenci" ["öğ"; "ren"; "ci"]
  /\ syllabify_is "bilgisayar" ["bil"; "gi"; "sa"; "yar"]
  /\ syllabify_is "cumhuriyet" ["cum"; "hu"; "ri"; "yet"].
Proof. repeat split; vm_compute; reflexivity. Qed.

Example test_syllabify_case_preservation :
  syllabify_is "MERHABA" ["MER"; "HA"; "BA"]
  /\ syllabify_is "KiTaP" ["Ki"; "TaP"].
Proof. repeat split; vm_compute; reflexivity. Qed.

Example test_syllable_patterns :
  syllabify_is "şair" ["şa"; "ir"] /\ syllabify_is "dua" ["du"; "a"]
  /\ syllabify_is "ana" ["a"; "na"]
  /\ syllabify_is "kurtarmak" ["kur"; "tar"; "mak"]
  /\ syllabify_is "kral" ["kral"] /\ syllabify_is "prova" ["pro"; "va"]
  /\ syllabify_is "türk" ["türk"] /\ syllabify_is "ders" ["ders"].
Proof. repeat split; vm_compute; reflexivity. Qed.

(** A run of three consonants gives its first consonant only to the
    syllable before it: the word gençlik comes out as [gen], [çlik], where
    the test file expects [["genç", "lik"]]. *)
Example test_three_consonants :
  syllabify_is "gençlik" ["gen"; "çlik"]
  /\ ~ syllabify_is "gençlik" ["genç"; "lik"].
Proof. split; [vm_compute; reflexivity | vm_compute; discriminate]. Qed.

Example test_apostrophe_and_circumflex :
  syllabify_is "Ankara'da" ["An"; "ka"; "ra"; "'da"]
  /\ syllabify_is "Ali'nin" ["A"; "li"; "'nin"]
  /\ syllabify_is "hâlâ" ["hâ"; "lâ"] /\ syllabify_is "rûh" ["rûh"].
Proof. repeat split; vm_compute; reflexivity. Qed.

Example test_with_separator :
  syllabify (U := py_unicode) (utf8 "merhaba") (Some (utf8 "-"))
  = Some (VStr (utf8 "mer-ha-ba")).
Proof. vm_compute; reflexivity. Qed.

Example test_analyze_kitap :
  analyze (U := py_unicode) (utf8 "kitap")
  = Some {| Info.word := utf8 "kitap";
            Info.syllables := map utf8 ["ki"; "tap"];
            Info.count := 2;
            Info.structure := map utf8 ["CV"; "CVC"] |}.
Proof. vm_compute; reflexivity. Qed.

(** The lower case of U+0130 is [i] followed by U+0307, one character more
    than the original: the restorer reads the case of each character one
    place too far and what is returned for the word İstanbul is [I],
    then U+0307 [stan], then [bul], where the test file expects
    [["İs", "tan", "bul"]]. *)
Example test_dotted_capital_i :
  syllabify (U := py_unicode) (utf8 "İstanbul") None
  = Some (VList [[73%N]; (775%N :: utf8 "stan"); utf8 "bul"])
  /\ ~ syllabify_is "İstanbul" ["İs"; "tan"; "bul"].
Proof. split; [vm_compute; reflexivity | vm_compute; discriminate]. Qed.

Local Close Scope string_scope.

(* ===================================================================== *)
(* The claims                                                             *)
(* ===================================================================== *)

(** C3.  After a vowel, when the run of consonants that follows has length
    0 (the next character is a vowel or neutral, or there is none) or
    length 1, [_find_break_point] returns 0 and the loop closes the
    syllable right after the vowel: it goes on at the next character with
    an empty accumulator, nothing more being taken into the syllable. *)
Theorem C3_break_right_after_vowel :
  forall (v : char) (run tail current_syllable current : str)
         (syllables : list str),
    is_vowel v = true ->
    consonant_run run tail ->
    length run <= 1 ->
    _find_break_point current_syllable (run ++ tail) = 0
    /\ segment_loop (v :: run ++ tail) current syllables =
       segment_loop (run ++ tail) [] (syllables ++ [current ++ [v]]).
Proof.
  intros v run tail cs current syllables Hv Hrun Hlen.
  assert (E : forall cs', _find_break_point cs' (run ++ tail) = 0).
  { intros cs'. rewrite (find_break_point_run _ _ _ Hrun).
    destruct (length run) as [|[|n]]; [reflexivity | reflexivity | lia]. }
  split; [apply E |].
  rewrite (segment_loop_vowel _ _ _ _ Hv). cbv zeta. rewrite E.
  simpl. rewrite app_nil_r. reflexivity.
Qed.

Lemma C3_witness :
  _find_break_point (utf8 "a") (utf8 "na") = 0
  /\ segment_loop (utf8 "ana") [] [] = segment_loop (utf8 "na") [] [utf8 "a"].
Proof.
  apply (C3_break_right_after_vowel 97%N [110%N] [97%N] (utf8 "a") [] []).
  - reflexivity.
  - split; [repeat constructor | reflexivity].
  - simpl; lia.
Defined.

(** C2.  After a vowel followed by a run of exactly two consonants
    [c1 c2]: if [c1 c2] is one of tr, pr, kr, gr, br, dr, fr, pl, kl, bl,
    fl, gl, the syllable is closed right after the vowel and both
    consonants start the next one; otherwise the syllable takes [c1] as
    its coda and the loop goes on at [c2].  And [syllabify("tren")] is
    [["tren"]]. *)
Theorem C2_two_consonants :
  (forall (v c1 c2 : char) (tail current_syllable current : str)
          (syllables : list str),
      is_vowel v = true ->
      consonant_run [c1; c2] tail ->
      (In [c1; c2]
          (map utf8 ["tr"; "pr"; "kr"; "gr"; "br"; "dr"; "fr";
                     "pl"; "kl"; "bl"; "fl"; "gl"]%string) ->
       _find_break_point current_syllable (c1 :: c2 :: tail) = 0
       /\ segment_loop (v :: c1 :: c2 :: tail) current syllables =
          segment_loop (c1 :: c2 :: tail) [] (syllables ++ [current ++ [v]]))
      /\
      (~ In [c1; c2]
           (map utf8 ["tr"; "pr"; "kr"; "gr"; "br"; "dr"; "fr";
                      "pl"; "kl"; "bl"; "fl"; "gl"]%string) ->
       _find_break_point current_syllable (c1 :: c2 :: tail) = 1
       /\ segment_loop (v :: c1 :: c2 :: tail) current syllables =
          segment_loop (c2 :: tail) []
            (syllables ++ [current ++ [v; c1]])))
  /\ syllabify (U := py_unicode) (utf8 "tren") None =
     Some (VList [utf8 "tren"]).
Proof.
  split; [| vm_compute; reflexivity].
  intros v c1 c2 tail cs current syllables Hv Hrun.
  assert (E : forall cs',
             _find_break_point cs' (c1 :: c2 :: tail) =
             if _is_valid_onset [c1; c2] then 0 else 1).
  { intros cs'. exact (find_break_point_run cs' _ _ Hrun). }
  change (map utf8 _) with valid_onsets.
  split; intros Hin.
  - apply is_valid_onset_In in Hin.
    split; [rewrite E, Hin; reflexivity |].
    rewrite (segment_loop_vowel _ _ _ _ Hv). cbv zeta. rewrite E, Hin.
    simpl. rewrite app_nil_r. reflexivity.
  - assert (Hf : _is_valid_onset [c1; c2] = false).
    { destruct (_is_valid_onset [c1; c2]) eqn:Ev; [| reflexivity].
      apply is_valid_onset_In in Ev. contradiction. }
    split; [rewrite E, Hf; reflexivity |].
    rewrite (segment_loop_vowel _ _ _ _ Hv). cbv zeta. rewrite E, Hf.
    simpl. rewrite <- app_assoc. reflexivity.
Qed.

Lemma C2_witness :
  (_find_break_point (utf8 "me") (utf8 "rhaba") = 1
   /\ segment_loop (utf8 "erhaba") (utf8 "m") [] =
      segment_loop (utf8 "haba") [] [utf8 "mer"])
  /\ (_find_break_point (utf8 "pa") (utf8 "tron") = 0
      /\ segment_loop (utf8 "atron") (utf8 "p") [] =
         segment_loop (utf8 "tron") [] [utf8 "pa"]).
Proof.
  split.
  - apply (proj1 C2_two_consonants 101%N 114%N 104%N (utf8 "aba")
             (utf8 "me") (utf8 "m") []).
    + reflexivity.
    + split; [repeat constructor | reflexivity].
    + vm_compute. intros H.
      repeat (destruct H as [H | H]; [discriminate |]). exact H.
  - apply (proj1 C2_two_consonants 97%N 116%N 114%N (utf8 "on")
             (utf8 "pa") (utf8 "p") []).
    + reflexivity.
    + split; [repeat constructor | reflexivity].
    + vm_compute. left. reflexivity.
Defined.



(** C5.  [syllabify("")] is the empty list, and [syllabify("", sep)] is
    the empty string for a non-empty [sep]; for the empty separator the
    test [if separator] takes it for absent and the result is the empty
    list, not the empty string. *)
Theorem C5_empty_word :
  forall (U : Unicode) (sep : str),
    syllabify [] None = Some (VList [])
    /\ syllabify [] (Some sep) =
       Some (match sep with [] => VList [] | _ :: _ => VStr [] end)
    /\ syllabify [] (Some []) <> Some (VStr []).
Proof.
  intros U sep. split; [reflexivity |]. split.
  - destruct sep; reflexivity.
  - simpl. discriminate.
Qed.

(** C8.  [count(W)] is the length of the list [syllabify(W)], and
    [analyze(W)] holds that list, its length as [count], and a structure
    list of the same length. *)
Theorem C8_count_consistency :
  forall (U : Unicode) (W : str),
  exists syls info,
    syllabify W None = Some (VList syls)
    /\ count W = Some (length syls)
    /\ analyze W = Some info
    /\ Info.syllables info = syls
    /\ Info.count info = length syls
    /\ length (Info.structure info) = length syls.
Proof.
  intros U W. destruct (syllabify_list W) as (syls & E).
  exists syls.
  exists {| Info.word := W; Info.syllables := syls;
            Info.count := length syls;
            Info.structure :=
              map (fun syl => struct_loop (str_lower syl) []) syls |}.
  unfold count, analyze. rewrite E. simpl.
  rewrite length_map. repeat split; reflexivity.
Qed.

(** The syllables of the boundary engine concatenate to its input,
    whatever it is.  For a word that is in NFC already and case-reversible
    (its lower case has as many characters as the word, an upper-case
    character is the upper case of its lower case, and any other character
    is its own lower case), the syllables of [syllabify] concatenate to the
    word. *)
Lemma concat_of_syllables_case_reversible :
  (forall w : str, concat (_segment w) = w)
  /\ (forall (U : Unicode) (W : str),
         normalize_NFC W = W ->
         case_reversible W (str_lower W) ->
         exists syls,
           syllabify W None = Some (VList syls) /\ concat syls = W).
Proof.
  split; [exact segment_concat |].
  intros U W Hnfc Hcase.
  destruct W as [|c W]; [exists []; split; reflexivity |].
  destruct (syllabify_nonempty (c :: W) None) as (syls & Er & _ & E);
    [discriminate |].
  exists syls. split; [exact E |].
  rewrite Hnfc in Er.
  destruct (restore_case_reversible (_segment (str_lower (c :: W))) (c :: W))
    as (out & Eo & Hc & _).
  - rewrite segment_concat. exact Hcase.
  - rewrite Eo in Er. inversion Er; subst. exact Hc.
Qed.

Example concat_of_syllables_mixed_case :
  exists syls,
    syllabify (U := py_unicode) (utf8 "KiTaP") None = Some (VList syls)
    /\ concat syls = utf8 "KiTaP".
Proof.
  apply (proj2 concat_of_syllables_case_reversible py_unicode (utf8 "KiTaP")).
  - reflexivity.
  - vm_compute. repeat constructor.
Qed.

(** C1.  The concatenation of the syllables does not reproduce every word:
    the word İstanbul is in NFC, its lower case [i], U+0307, [stanbul] is
    one character longer, and the case restorer, which advances its cursor
    in the original once for each character of the lower case, returns [I],
    then U+0307 [stan], then [bul].  Their concatenation has nine
    characters and is not the word, and the list is not the
    [["İs", "tan", "bul"]] of the test file.  [syllabify("Türkiye")] is
    [["Tür", "ki", "ye"]]. *)
Theorem C1_concat_fails_on_dotted_capital_i :
  normalize_NFC (Unicode := py_unicode) (utf8 "İstanbul") = utf8 "İstanbul"
  /\ str_lower (Unicode := py_unicode) (utf8 "İstanbul")
     = 105%N :: 775%N :: utf8 "stanbul"
  /\ syllabify (U := py_unicode) (utf8 "İstanbul") None
     = Some (VList [[73%N]; 775%N :: utf8 "stan"; utf8 "bul"])
  /\ concat [[73%N]; 775%N :: utf8 "stan"; utf8 "bul"] <> utf8 "İstanbul"
  /\ syllabify (U := py_unicode) (utf8 "İstanbul") None
     <> Some (VList (map utf8 ["İs"; "tan"; "bul"]%string))
  /\ syllabify (U := py_unicode) (utf8 "Türkiye") None
     = Some (VList (map utf8 ["Tür"; "ki"; "ye"]%string)).
Proof.
  repeat split; try (vm_compute; reflexivity); vm_compute; discriminate.
Qed.

(** C6 (amended).  For a word with at least one syllable and a non-empty
    separator, such that no occurrence of the separator starts inside a
    syllable that is followed by the separator, and the separator does not
    occur in the last syllable, splitting the joined string gives the list
    of syllables back. *)
Theorem C6_separator_round_trip :
  forall (U : Unicode) (W sep : str) (syls : list str),
    syllabify W None = Some (VList syls) ->
    syls <> [] ->
    sep <> [] ->
    Forall (fun s => occurs_before sep s sep = false) (removelast syls) ->
    occurs sep (last syls []) = false ->
    separator_round_trip W sep.
Proof.
  intros U W sep syls E Hne Hsep Hin Hlast.
  exists syls, (join sep syls). split; [exact E |].
  split; [| apply split_join; assumption].
  destruct W as [|c W].
  - simpl in E. inversion E; subst. contradiction.
  - destruct (syllabify_nonempty (c :: W) None) as (l & Er & _ & E');
      [discriminate |].
    rewrite E in E'. inversion E'; subst l.
    destruct (syllabify_nonempty (c :: W) (Some sep)) as (l & Er' & _ & E'');
      [discriminate |].
    rewrite Er in Er'. inversion Er'; subst l. exact E''.
Qed.

Lemma C6_witness :
  separator_round_trip (U := py_unicode) (utf8 "merhaba") (utf8 "-").
Proof.
  apply (C6_separator_round_trip py_unicode (utf8 "merhaba") (utf8 "-")
           (map utf8 ["mer"; "ha"; "ba"]%string)).
  - vm_compute; reflexivity.
  - discriminate.
  - discriminate.
  - vm_compute. repeat constructor.
  - vm_compute; reflexivity.
Defined.

(** C6 fails for the word [aa] and the separator [aa], which occurs in
    neither syllable [a]: the joined string [aaaa] splits into three empty
    strings.  It fails for the empty word too: it has no syllable, and the
    empty joined string splits into one empty string. *)
Lemma C6_counterexample :
  (in_no_syllable (U := py_unicode) (utf8 "aa") (utf8 "aa")
   /\ ~ separator_round_trip (U := py_unicode) (utf8 "aa") (utf8 "aa"))
  /\ (in_no_syllable (U := py_unicode) [] (utf8 "-")
      /\ ~ separator_round_trip (U := py_unicode) [] (utf8 "-")).
Proof.
  split; split.
  - exists [utf8 "a"; utf8 "a"]. split; [vm_compute; reflexivity |].
    repeat constructor.
  - intros (syls & joined & E1 & E2 & E3).
    vm_compute in E1, E2. inversion E1; subst. inversion E2; subst.
    vm_compute in E3. discriminate.
  - exists []. split; [reflexivity | constructor].
  - intros (syls & joined & E1 & E2 & E3).
    vm_compute in E1, E2. inversion E1; subst. inversion E2; subst.
    vm_compute in E3. discriminate.
Qed.

(** C7 (amended).  [syllabify] raises no exception, whatever the word and
    the separator.  A non-empty word whose lower-cased NFC form is not
    empty and holds no vowel gives exactly one syllable; when the word is
    in NFC already and case-reversible, that syllable is the word. *)
Theorem C7_no_error_and_no_vowel :
  (forall (U : Unicode) (W : str) (separator : option str),
      exists v, syllabify W separator = Some v)
  /\ (forall (U : Unicode) (W : str),
         W <> [] ->
         str_lower (normalize_NFC W) <> [] ->
         count_vowels (str_lower (normalize_NFC W)) = 0 ->
         exists r, syllabify W None = Some (VList [r]))
  /\ (forall (U : Unicode) (W : str),
         W <> [] ->
         normalize_NFC W = W ->
         case_reversible W (str_lower W) ->
         count_vowels (str_lower W) = 0 ->
         syllabify W None = Some (VList [W])).
Proof.
  split; [| split].
  - intros U W separator. destruct W as [|c W].
    + eexists. reflexivity.
    + destruct (syllabify_nonempty (c :: W) separator) as (l & _ & _ & E);
        [discriminate |].
      eexists. exact E.
  - intros U W HW HL Hv.
    destruct (syllabify_nonempty W None HW) as (l & _ & Hlen & E).
    rewrite (segment_no_vowel _ HL Hv) in Hlen. simpl in Hlen.
    destruct l as [|r [|r' l]]; try discriminate.
    exists r. exact E.
  - intros U W HW Hnfc Hcase Hv.
    assert (HL : str_lower W <> []).
    { intros E. rewrite E in Hcase. inversion Hcase; subst. contradiction. }
    destruct (syllabify_nonempty W None HW) as (l & Er & _ & E).
    rewrite Hnfc in Er. rewrite (segment_no_vowel _ HL Hv) in Er.
    destruct (restore_case_reversible [str_lower W] W) as (out & Eo & Hc & Hm).
    { simpl. rewrite app_nil_r. exact Hcase. }
    assert (Eq : Some l = Some out)
      by (etransitivity; [symmetry; exact Er | exact Eo]).
    inversion Eq; subst l.
    destruct out as [|x [|y out]]; try discriminate.
    simpl in Hc. rewrite app_nil_r in Hc. subst x. exact E.
Qed.

Lemma C7_witness :
  syllabify (U := py_unicode) (utf8 "TBMM") None = Some (VList [utf8 "TBMM"]).
Proof.
  apply (proj2 (proj2 C7_no_error_and_no_vowel) py_unicode (utf8 "TBMM")).
  - discriminate.
  - reflexivity.
  - vm_compute. repeat constructor.
  - reflexivity.
Defined.

(** C7 fails for the one-character word U+01C5, a title-case letter: it
    holds no vowel, and the syllable returned is its lower case U+01C6.
    It fails as well for [s], U+0327: the syllable is the composed
    U+015F. *)
Lemma C7_counterexample :
  (count_vowels [453%N] = 0
   /\ count_vowels
        (str_lower (Unicode := py_unicode) (normalize_NFC [453%N])) = 0
   /\ syllabify (U := py_unicode) [453%N] None = Some (VList [[454%N]])
   /\ syllabify (U := py_unicode) [453%N] None <> Some (VList [[453%N]]))
  /\ (count_vowels [115; 807]%N = 0
      /\ syllabify (U := py_unicode) [115; 807]%N None
         = Some (VList [[351%N]])
      /\ syllabify (U := py_unicode) [115; 807]%N None
         <> Some (VList [[115; 807]%N])).
Proof.
  repeat split; try (vm_compute; reflexivity); vm_compute; discriminate.
Qed.

(** C9.  Every shape code of [analyze(W)] is made of the letters V and C:
    one letter for each vowel or consonant of the lower-cased syllable, in
    order, and none for a neutral character.  It is no longer than its
    syllable, lower-casing a string giving no more classified letters than
    the string has characters. *)
Theorem C9_shape_codes :
  forall (U : Unicode) (W : str),
    (forall s, length (filter is_letter (str_lower s)) <= length s) ->
    exists info,
      analyze W = Some info
      /\ Forall2
           (fun syl code =>
              Forall (fun x => x = letter_V \/ x = letter_C) code
              /\ code = map shape_letter (filter is_letter (str_lower syl))
              /\ length code <= length syl)
           (Info.syllables info) (Info.structure info).
Proof.
  intros U W Hlow. destruct (syllabify_list W) as (syls & E).
  unfold analyze. rewrite E. eexists. split; [reflexivity |].
  simpl. clear E. induction syls as [|s l IH]; simpl; constructor.
  - rewrite struct_loop_spec. simpl. split; [| split].
    + apply Forall_forall. intros x Hx. apply in_map_iff in Hx.
      destruct Hx as (c & <- & _). unfold shape_letter.
      destruct (is_vowel c); [left | right]; reflexivity.
    + reflexivity.
    + rewrite length_map. apply Hlow.
  - exact IH.
Qed.

Lemma C9_witness :
  exists info,
    analyze (U := py_unicode) (utf8 "Ali'nin") = Some info
    /\ Forall2
         (fun syl code =>
            Forall (fun x => x = letter_V \/ x = letter_C) code
            /\ code = map shape_letter
                        (filter is_letter
                           (str_lower (Unicode := py_unicode) syl))
            /\ length code <= length syl)
         (Info.syllables info) (Info.structure info).
Proof.
  exact (C9_shape_codes py_unicode (utf8 "Ali'nin") py_lower_letters).
Defined.

(* ===================================================================== *)
(* Further properties of the module                                       *)
(* ===================================================================== *)

(* --------------------------------------------------------------------- *)
(* The break point                                                        *)
(* --------------------------------------------------------------------- *)

Lemma consonant_count_two remaining :
  2 <= consonant_count remaining ->
  exists c1 c2 r,
    remaining = c1 :: c2 :: r
    /\ is_consonant c1 = true /\ is_consonant c2 = true.
Proof.
  destruct remaining as [|c1 [|c2 r]]; simpl.
  - lia.
  - destruct (is_consonant c1); lia.
  - destruct (is_consonant c1) eqn:E1; [| lia].
    destruct (is_consonant c2) eqn:E2; [| lia].
    intros _. exists c1, c2, r. auto.
Qed.

(** A break point that is not 0 is 1, and is returned only in front of two
    consonants. *)
Lemma find_break_point_pos current remaining j :
  _find_break_point current remaining = S j ->
  j = 0 /\ 2 <= consonant_count remaining.
Proof.
  intros E. split.
  - pose proof (find_break_point_le current remaining) as [_ H]. lia.
  - unfold _find_break_point in E.
    destruct remaining as [|c r]; [discriminate |].
    destruct (consonant_count (c :: r)) as [|[|n]]; simpl in E;
      try discriminate. lia.
Qed.

Lemma firstn_consonants k s :
  k <= consonant_count s ->
  Forall (fun c => is_consonant c = true) (firstn k s).
Proof.
  revert k; induction s as [|c s IH]; intros k Hk; simpl in *.
  - destruct k; constructor.
  - destruct k as [|k]; [constructor |].
    destruct (is_consonant c) eqn:Ec; [| lia].
    simpl. constructor; [exact Ec | apply IH; lia].
Qed.

(** X1.  [_find_break_point] returns 0 or 1, whatever its arguments, and
    it returns 1 only when [remaining] starts with two consonants: the
    character a syllable takes after its vowel is a consonant, and the next
    syllable then starts with a consonant too. *)
Theorem X1_break_point_bounds :
  forall current_syllable remaining : str,
    (_find_break_point current_syllable remaining = 0
     \/ _find_break_point current_syllable remaining = 1)
    /\ (_find_break_point current_syllable remaining = 1 ->
        exists c1 c2 r,
          remaining = c1 :: c2 :: r
          /\ is_consonant c1 = true /\ is_consonant c2 = true).
Proof.
  intros cs remaining. split.
  - pose proof (find_break_point_le cs remaining) as [_ H]. lia.
  - intros E. apply find_break_point_pos in E.
    apply consonant_count_two. apply E.
Qed.

Lemma X1_witness :
  exists c1 c2 r,
    utf8 "rhaba" = c1 :: c2 :: r
    /\ is_consonant c1 = true /\ is_consonant c2 = true.
Proof.
  apply (proj2 (X1_break_point_bounds (utf8 "me") (utf8 "rhaba"))).
  reflexivity.
Defined.

(** X12.  The break point depends on the first three characters of
    [remaining] only, and not on the current syllable. *)
Theorem X12_break_point_lookahead :
  forall current_syllable current_syllable' remaining : str,
    _find_break_point current_syllable remaining =
    _find_break_point current_syllable' (firstn 3 remaining).
Proof.
  intros cs cs' remaining. unfold _find_break_point.
  destruct remaining as [|c1 [|c2 [|c3 r]]]; try reflexivity.
  cbn [firstn consonant_count].
  destruct (is_consonant c1); [| reflexivity].
  destruct (is_consonant c2); [| reflexivity].
  destruct (is_consonant c3); [| reflexivity].
  destruct (consonant_count r); reflexivity.
Qed.

(** X11.  A cluster [_is_valid_onset] accepts is made of two consonants,
    the second of which is [r] or [l]. *)
Theorem X11_valid_onset_shape :
  forall cluster : str,
    _is_valid_onset cluster = true ->
    exists c1 c2,
      cluster = [c1; c2]
      /\ is_consonant c1 = true /\ is_consonant c2 = true
      /\ (c2 = hd 0%N (utf8 "r") \/ c2 = hd 0%N (utf8 "l")).
Proof.
  intros cluster H. apply is_valid_onset_In in H.
  unfold valid_onsets in H. simpl in H.
  repeat (destruct H as [<- | H];
          [eexists; eexists; split; [reflexivity |];
           split; [reflexivity |]; split; [reflexivity |];
           vm_compute; auto |]).
  destruct H.
Qed.

Lemma X11_witness :
  exists c1 c2,
    utf8 "kl" = [c1; c2]
    /\ is_consonant c1 = true /\ is_consonant c2 = true
    /\ (c2 = hd 0%N (utf8 "r") \/ c2 = hd 0%N (utf8 "l")).
Proof.
  apply (X11_valid_onset_shape (utf8 "kl")). reflexivity.
Defined.

(* --------------------------------------------------------------------- *)
(* The shape of the syllables of the boundary engine                      *)
(* --------------------------------------------------------------------- *)

Lemma count_vowels_app a b :
  count_vowels (a ++ b) = count_vowels a + count_vowels b.
Proof.
  unfold count_vowels. rewrite filter_app, length_app. reflexivity.
Qed.

Lemma closed_syllable_one_vowel s :
  closed_syllable s -> count_vowels s = 1.
Proof.
  intros (onset & v & coda & -> & Ho & Hv & Hc).
  rewrite count_vowels_app, Ho. unfold count_vowels. simpl. rewrite Hv.
  destruct Hc as [-> | (c & -> & Hc)]; [reflexivity |].
  simpl. rewrite (consonant_not_vowel _ Hc). reflexivity.
Qed.

Lemma closed_syllable_nonempty s : closed_syllable s -> s <> [].
Proof.
  intros (onset & v & coda & -> & _). destruct onset; discriminate.
Qed.

Lemma starts_with_consonant_app s x :
  s <> [] -> starts_with_consonant (s ++ x) -> starts_with_consonant s.
Proof.
  intros Hs (c & r & E & Hc). destruct s as [|d s]; [contradiction |].
  simpl in E. inversion E; subst. exists c, s. auto.
Qed.

Lemma boundaries_ok_app syls e after :
  boundaries_ok syls (e ++ after) ->
  ends_with_vowel e \/ starts_with_consonant after ->
  boundaries_ok (syls ++ [e]) after.
Proof.
  intros H He. induction syls as [|s r IH]; simpl in *.
  - auto.
  - destruct H as [Hs Hr]. split; [| exact (IH Hr)].
    rewrite concat_app. simpl. rewrite app_nil_r, <- app_assoc. exact Hs.
Qed.

Lemma boundaries_ok_last syls e after :
  boundaries_ok (syls ++ [e]) after -> boundaries_ok syls (e ++ after).
Proof.
  induction syls as [|s r IH]; simpl; [auto |].
  intros [Hs Hr]. split; [| exact (IH Hr)].
  rewrite concat_app in Hs. simpl in Hs.
  rewrite app_nil_r, <- app_assoc in Hs. exact Hs.
Qed.

Lemma boundaries_ok_middle l1 s r after :
  boundaries_ok (l1 ++ s :: r) after ->
  ends_with_vowel s \/ starts_with_consonant (concat r ++ after).
Proof.
  induction l1 as [|x l1 IH]; simpl.
  - intros [H _]. exact H.
  - intros [_ H]. exact (IH H).
Qed.

(** The invariant of the loop: the accumulator holds no vowel, every
    syllable emitted is closed, and every syllable emitted ends with a
    vowel or is followed by a consonant. *)
Lemma segment_loop_structure rest current syllables :
  count_vowels current = 0 ->
  Forall closed_syllable syllables ->
  boundaries_ok syllables (current ++ rest) ->
  let '(syllables', current') := segment_loop rest current syllables in
  Forall closed_syllable syllables'
  /\ count_vowels current' = 0
  /\ boundaries_ok syllables' current'.
Proof.
  apply (segment_loop_induction
    (fun rest current syllables out =>
       count_vowels current = 0 ->
       Forall closed_syllable syllables ->
       boundaries_ok syllables (current ++ rest) ->
       let '(syllables', current') := out in
       Forall closed_syllable syllables'
       /\ count_vowels current' = 0
       /\ boundaries_ok syllables' current')).
  - intros cu sy Hcu Hsy Hb. rewrite app_nil_r in Hb. auto.
  - intros c nx cu sy Hc IH Hcu Hsy Hb. apply IH.
    + rewrite count_vowels_app, Hcu. unfold count_vowels. simpl.
      rewrite Hc. reflexivity.
    + exact Hsy.
    + rewrite <- app_assoc. exact Hb.
  - intros c nx cu sy k Hc Hk emitted IH Hcu Hsy Hb. apply IH.
    + reflexivity.
    + subst emitted. apply Forall_app. split; [exact Hsy |].
      constructor; [| constructor].
      exists cu, c, (firstn k nx).
      split; [rewrite <- app_assoc; reflexivity |].
      split; [exact Hcu |]. split; [exact Hc |].
      destruct k as [|j]; [left; reflexivity | right].
      symmetry in Hk. apply find_break_point_pos in Hk.
      destruct Hk as [-> Hn].
      apply consonant_count_two in Hn.
      destruct Hn as (c1 & c2 & r & -> & H1 & _).
      exists c1. auto.
    + subst emitted. simpl. apply boundaries_ok_app.
      * rewrite <- !app_assoc. simpl. rewrite firstn_skipn. exact Hb.
      * destruct k as [|j].
        -- left. exists cu, c. simpl. rewrite app_nil_r. auto.
        -- right. symmetry in Hk. apply find_break_point_pos in Hk.
           destruct Hk as [-> Hn].
           apply consonant_count_two in Hn.
           destruct Hn as (c1 & c2 & r & -> & _ & H2).
           exists c2, r. auto.
Qed.

Lemma removelast_snoc {A} (l : list A) (a : A) : removelast (l ++ [a]) = l.
Proof.
  induction l as [|x l IH]; [reflexivity |].
  simpl. rewrite IH. destruct (l ++ [a]) eqn:E; [| reflexivity].
  destruct l; discriminate.
Qed.

Lemma last_snoc {A} (l : list A) (a d : A) : last (l ++ [a]) d = a.
Proof.
  induction l as [|x l IH]; [reflexivity |].
  simpl. rewrite IH. destruct (l ++ [a]) eqn:E; [| reflexivity].
  destruct l; discriminate.
Qed.

Lemma snoc_cases {A} (l : list A) (d : A) :
  l = [] \/ l = removelast l ++ [last l d].
Proof.
  destruct l as [|x l]; [left; reflexivity | right].
  apply app_removelast_last. discriminate.
Qed.

(** The syllables of [_segment]: all but the last are closed, the last is
    a closed syllable followed by a leftover without a vowel when the word
    has a vowel, and every syllable but the last ends with a vowel or is
    followed by a consonant. *)
Lemma segment_structure w :
  Forall closed_syllable (removelast (_segment w))
  /\ (1 <= count_vowels w ->
      exists s leftover,
        last (_segment w) [] = s ++ leftover
        /\ closed_syllable s /\ count_vowels leftover = 0)
  /\ boundaries_ok (removelast (_segment w)) (last (_segment w) []).
Proof.
  unfold _segment.
  assert (H : let '(sy, cu) := segment_loop w [] [] in
              Forall closed_syllable sy /\ count_vowels cu = 0
              /\ boundaries_ok sy cu)
    by (apply segment_loop_structure; [reflexivity | constructor | exact I]).
  pose proof (segment_loop_length w [] []) as L.
  destruct (segment_loop w [] []) as [sy cu]. simpl in L.
  destruct H as (Hsy & Hcu & Hb).
  destruct (snoc_cases sy []) as [-> | E].
  - (* no syllable was emitted *)
    destruct cu as [|x cu]; simpl; repeat split; try constructor;
      intros Hv; simpl in L; lia.
  - remember (removelast sy) as rl. remember (last sy []) as la.
    rewrite E in Hsy, Hb. apply Forall_app in Hsy. destruct Hsy as [Hrl Hla].
    inversion Hla as [|? ? Hla' _]; subst x l.
    apply boundaries_ok_last in Hb.
    destruct cu as [|x cu].
    + rewrite E, removelast_snoc, last_snoc. rewrite app_nil_r in Hb.
      split; [exact Hrl |]. split; [| exact Hb].
      intros _. exists la, []. rewrite app_nil_r. auto.
    + destruct sy as [|s0 sy0] eqn:Esy.
      { destruct rl; discriminate. }
      cbv iota. rewrite removelast_snoc, last_snoc.
      split; [exact Hrl |]. split; [| exact Hb].
      intros _. exists la, (x :: cu). auto.
Qed.

(** With a vowel in the word every syllable holds exactly one vowel. *)
Lemma segment_one_vowel w :
  1 <= count_vowels w ->
  Forall (fun s => count_vowels s = 1) (_segment w).
Proof.
  intros Hv.
  destruct (segment_structure w) as (Hrl & Hla & _).
  destruct (Hla Hv) as (s & leftover & E & Hs & Hl).
  pose proof (segment_length w Hv) as L.
  destruct (snoc_cases (_segment w) []) as [E0 | E1].
  - rewrite E0 in L. simpl in L. lia.
  - rewrite E1. apply Forall_app. split.
    + eapply Forall_impl; [| exact Hrl].
      intros a Ha. apply closed_syllable_one_vowel. exact Ha.
    + constructor; [| constructor].
      rewrite E, count_vowels_app, Hl, (closed_syllable_one_vowel _ Hs).
      reflexivity.
Qed.

(** A string with one vowel is one syllable. *)
Lemma segment_single s : count_vowels s = 1 -> _segment s = [s].
Proof.
  intros Hv.
  assert (L : length (_segment s) = 1)
    by (rewrite segment_length; [exact Hv | lia]).
  pose proof (segment_concat s) as C.
  destruct (_segment s) as [|x [|y l]]; try discriminate.
  simpl in C. rewrite app_nil_r in C. subst x. reflexivity.
Qed.

(** X2.  When the word has a vowel, every syllable of the boundary engine
    holds exactly one vowel. *)
Theorem X2_one_vowel_per_syllable :
  forall w : str,
    1 <= count_vowels w ->
    Forall (fun s => count_vowels s = 1) (_segment w).
Proof.
  exact segment_one_vowel.
Qed.

Lemma X2_witness :
  Forall (fun s => count_vowels s = 1) (_segment (utf8 "bilgisayar")).
Proof.
  apply (X2_one_vowel_per_syllable (utf8 "bilgisayar")).
  vm_compute. lia.
Defined.

(** X3.  Segmenting a syllable of the boundary engine gives that syllable
    alone: the engine does not cut its own syllables further. *)
Theorem X3_segment_idempotent :
  forall w : str, Forall (fun s => _segment s = [s]) (_segment w).
Proof.
  intros w. destruct (count_vowels w) as [|n] eqn:Hv.
  - destruct w as [|c w]; [constructor |].
    rewrite (segment_no_vowel (c :: w)) by (discriminate || exact Hv).
    constructor; [| constructor].
    apply segment_no_vowel; [discriminate | exact Hv].
  - eapply Forall_impl; [| apply segment_one_vowel; lia].
    intros s Hs. apply segment_single. exact Hs.
Qed.

(** X4.  Every syllable of the boundary engine but the last is closed: it
    is an onset without a vowel, a vowel, and at most one consonant after
    the vowel. *)
Theorem X4_coda_of_inner_syllables :
  forall w : str, Forall closed_syllable (removelast (_segment w)).
Proof.
  intros w. apply segment_structure.
Qed.

(** X5.  Of two syllables of the boundary engine that follow one another,
    the first ends with a vowel or the second starts with a consonant: a
    syllable never ends with a consonant in front of a vowel or of a
    neutral character. *)
Theorem X5_onset_maximization :
  forall (w : str) (l1 : list str) (s t : str) (l2 : list str),
    _segment w = l1 ++ s :: t :: l2 ->
    ends_with_vowel s \/ starts_with_consonant t.
Proof.
  intros w l1 s t l2 E.
  destruct (segment_structure w) as (_ & _ & Hb).
  pose proof (segment_nonempty w) as Hne.
  rewrite E in Hb, Hne.
  assert (Ht : t <> []).
  { apply Forall_app in Hne. destruct Hne as [_ Hne].
    inversion Hne as [|? ? _ Hne']; subst.
    inversion Hne'; subst. assumption. }
  destruct (snoc_cases (t :: l2) []) as [E0 | E1]; [discriminate |].
  remember (removelast (t :: l2)) as rl. remember (last (t :: l2) []) as la.
  assert (Ea : l1 ++ s :: t :: l2 = (l1 ++ s :: rl) ++ [la]).
  { rewrite E1, <- app_assoc. reflexivity. }
  rewrite Ea, removelast_snoc, last_snoc in Hb.
  apply boundaries_ok_middle in Hb.
  destruct Hb as [Hb | Hb]; [left; exact Hb | right].
  assert (Ec : concat rl ++ la = t ++ concat l2).
  { change (t ++ concat l2) with (concat (t :: l2)).
    rewrite E1, concat_app. simpl. rewrite app_nil_r. reflexivity. }
  rewrite Ec in Hb. exact (starts_with_consonant_app _ _ Ht Hb).
Qed.

Lemma X5_witness :
  ends_with_vowel (utf8 "mer") \/ starts_with_consonant (utf8 "ha").
Proof.
  apply (X5_onset_maximization (utf8 "merhaba") [] (utf8 "mer") (utf8 "ha")
           [utf8 "ba"]).
  vm_compute. reflexivity.
Defined.

(* --------------------------------------------------------------------- *)
(* The case restorer on words without upper case                          *)
(* --------------------------------------------------------------------- *)

Section RestorerFacts.
Context {U : Unicode}.

Lemma restore_syllable_no_upper original syllable restored char_index :
  Forall (fun o => chr_isupper o = false) original ->
  exists i,
    restore_syllable original syllable restored char_index =
    Some (restored ++ syllable, i).
Proof.
  intros Hup. revert restored char_index.
  induction syllable as [|c s IH]; intros restored ci; simpl.
  - exists ci. rewrite app_nil_r. reflexivity.
  - assert (E : forall i, exists j,
               restore_syllable original s (restored ++ [c]) i =
               Some (restored ++ c :: s, j)).
    { intros i. destruct (IH (restored ++ [c]) i) as (j & ->).
      exists j. rewrite <- app_assoc. reflexivity. }
    destruct (ci <? length original) eqn:Hlt; [| apply E].
    apply Nat.ltb_lt in Hlt.
    destruct (nth_error original ci) as [o|] eqn:Ho.
    + apply nth_error_In in Ho.
      rewrite Forall_forall in Hup. rewrite (Hup _ Ho). apply E.
    + apply nth_error_None in Ho. lia.
Qed.

Lemma restore_loop_no_upper original syllables result char_index :
  Forall (fun o => chr_isupper o = false) original ->
  restore_loop original syllables result char_index =
  Some (result ++ syllables).
Proof.
  intros Hup. revert result char_index.
  induction syllables as [|s l IH]; intros result ci; simpl.
  - rewrite app_nil_r. reflexivity.
  - destruct (restore_syllable_no_upper original s [] ci Hup) as (i & ->).
    simpl. rewrite IH, <- app_assoc. reflexivity.
Qed.

(** When each character of a syllable has a one-character upper case, the
    restored syllable has the length of the syllable. *)
Lemma restore_syllable_length original syllable restored char_index r i :
  Forall (fun c => length (chr_upper c) = 1) syllable ->
  restore_syllable original syllable restored char_index = Some (r, i) ->
  length r = length restored + length syllable.
Proof.
  intros Hup. revert restored char_index.
  induction Hup as [|c s Hc Hs IH]; intros restored ci; simpl.
  - intros E. inversion E; subst. lia.
  - destruct (ci <? length original).
    + destruct (nth_error original ci) as [o|]; [| discriminate].
      destruct (chr_isupper o); intros E; apply IH in E;
        rewrite length_app in E; simpl in E; lia.
    + intros E. apply IH in E. rewrite length_app in E. simpl in E. lia.
Qed.

Lemma restore_loop_lengths original syllables result char_index out :
  Forall (Forall (fun c => length (chr_upper c) = 1)) syllables ->
  restore_loop original syllables result char_index = Some out ->
  map (@length char) out =
  map (@length char) result ++ map (@length char) syllables.
Proof.
  intros Hup. revert result char_index.
  induction Hup as [|s l Hs Hl IH]; intros result ci; simpl.
  - intros E. inversion E; subst. rewrite app_nil_r. reflexivity.
  - destruct (restore_syllable original s [] ci) as [[r i]|] eqn:Er;
      [| discriminate].
    intros E. apply IH in E. rewrite E, map_app, <- app_assoc. simpl.
    apply (restore_syllable_length _ _ _ _ _ _ Hs) in Er. simpl in Er.
    rewrite Er. reflexivity.
Qed.

(** With a separator the result is the joined list of the call without. *)
Lemma syllabify_join w sep syls :
  w <> [] ->
  syllabify w None = Some (VList syls) ->
  syllabify w (Some sep) = Some (VStr (join sep syls)).
Proof.
  intros Hw E.
  destruct (syllabify_nonempty w None Hw) as (l & Er & _ & E').
  assert (El : l = syls).
  { rewrite E in E'. inversion E'. reflexivity. }
  subst l.
  destruct (syllabify_nonempty w (Some sep) Hw) as (l & Er' & _ & E'').
  assert (El : l = syls).
  { assert (Eq : Some l = Some syls)
      by (etransitivity; [symmetry; exact Er' | exact Er]).
    inversion Eq. reflexivity. }
  subst l. exact E''.
Qed.

End RestorerFacts.

Lemma occurs_before_char c s tail :
  ~ In c s -> occurs_before [c] s tail = false.
Proof.
  induction s as [|d s IH]; intros H; [reflexivity |].
  cbn [occurs_before]. rewrite IH by (intros Hi; apply H; right; exact Hi).
  simpl. destruct (chr_eqb c d) eqn:E; [| reflexivity].
  apply chr_eqb_eq in E. subst d. exfalso. apply H. left. reflexivity.
Qed.

Lemma occurs_char c s : ~ In c s -> occurs [c] s = false.
Proof.
  induction s as [|d s IH]; intros H; [reflexivity |].
  cbn [occurs]. rewrite IH by (intros Hi; apply H; right; exact Hi).
  simpl. destruct (chr_eqb c d) eqn:E; [| reflexivity].
  apply chr_eqb_eq in E. subst d. exfalso. apply H. left. reflexivity.
Qed.

(** The letter V is counted once for each vowel. *)
Lemma count_V_shape s :
  count_char letter_V (map shape_letter (filter is_letter s)) =
  count_vowels s.
Proof.
  unfold count_char, count_vowels.
  induction s as [|c s IH]; [reflexivity |].
  cbn [filter]. unfold is_letter at 1.
  assert (HV : is_vowel c = true -> shape_letter c = letter_V)
    by (intros E; unfold shape_letter; rewrite E; reflexivity).
  assert (HC : is_vowel c = false -> shape_letter c = letter_C)
    by (intros E; unfold shape_letter; rewrite E; reflexivity).
  destruct (is_vowel c) eqn:Ev; cbn [orb].
  - cbn [map filter]. rewrite (HV eq_refl).
    change (chr_eqb letter_V letter_V) with true.
    cbn [length]. rewrite IH. reflexivity.
  - destruct (is_consonant c) eqn:Ec; [| exact IH].
    cbn [map filter]. rewrite (HC eq_refl).
    change (chr_eqb letter_V letter_C) with false. exact IH.
Qed.

(** X6.  On an original word without an upper-case character,
    [_restore_case] returns the syllables as they are, whatever the lengths
    of the two; hence for a non-empty word whose NFC form has no upper-case
    character, [syllabify] returns the syllables of the boundary engine on
    the lower-cased NFC form. *)
Theorem X6_restore_without_upper_case :
  forall U : Unicode,
    (forall (syls : list str) (original : str),
        Forall (fun o => chr_isupper o = false) original ->
        _restore_case syls original = Some syls)
    /\ (forall W : str,
           W <> [] ->
           Forall (fun o => chr_isupper o = false) (normalize_NFC W) ->
           syllabify W None =
           Some (VList (_segment (str_lower (normalize_NFC W))))).
Proof.
  intros U. split.
  - intros syls original Hup. unfold _restore_case.
    rewrite restore_loop_no_upper by exact Hup. reflexivity.
  - intros W HW Hup.
    destruct (syllabify_nonempty W None HW) as (l & Er & _ & E).
    unfold _restore_case in Er.
    rewrite restore_loop_no_upper in Er by exact Hup.
    inversion Er; subst l. exact E.
Qed.

Lemma X6_witness :
  syllabify (U := py_unicode) (utf8 "ankara'da") None =
  Some (VList (_segment (str_lower (Unicode := py_unicode)
                           (normalize_NFC (utf8 "ankara'da"))))).
Proof.
  apply (proj2 (X6_restore_without_upper_case py_unicode)).
  - discriminate.
  - vm_compute. repeat constructor.
Defined.

(** X7.  Restoring the case never moves a boundary: when every character
    of the lower-cased NFC form has a one-character upper case, the
    syllables of [syllabify] have, one by one, the lengths of the syllables
    of the boundary engine. *)
Theorem X7_case_keeps_boundaries :
  forall (U : Unicode) (W : str),
    W <> [] ->
    Forall (fun c => length (chr_upper c) = 1)
      (str_lower (normalize_NFC W)) ->
    exists syls,
      syllabify W None = Some (VList syls)
      /\ map (@length char) syls =
         map (@length char) (_segment (str_lower (normalize_NFC W))).
Proof.
  intros U W HW Hup.
  destruct (syllabify_nonempty W None HW) as (l & Er & _ & E).
  exists l. split; [exact E |].
  unfold _restore_case in Er.
  apply restore_loop_lengths in Er; [exact Er |].
  apply Forall_concat. rewrite segment_concat. exact Hup.
Qed.

Lemma X7_witness :
  exists syls,
    syllabify (U := py_unicode) (utf8 "İSTANBUL") None = Some (VList syls)
    /\ map (@length char) syls =
       map (@length char)
         (_segment (str_lower (Unicode := py_unicode)
                      (normalize_NFC (utf8 "İSTANBUL")))).
Proof.
  apply (X7_case_keeps_boundaries py_unicode (utf8 "İSTANBUL")).
  - discriminate.
  - vm_compute. repeat constructor.
Defined.

(** X9.  For a separator of one character that occurs in no syllable of a
    word with at least one syllable, splitting the joined result on the
    separator gives the list of syllables back. *)
Theorem X9_round_trip_one_character :
  forall (U : Unicode) (W : str) (c : char) (syls : list str),
    syllabify W None = Some (VList syls) ->
    syls <> [] ->
    Forall (fun s => ~ In c s) syls ->
    separator_round_trip W [c].
Proof.
  intros U W c syls E Hne Hc.
  exists syls, (join [c] syls). split; [exact E |]. split.
  - apply syllabify_join; [| exact E].
    intros ->. simpl in E. inversion E; subst. contradiction.
  - apply split_join; [discriminate | exact Hne | |].
    + apply Forall_removelast.
      eapply Forall_impl; [| exact Hc].
      intros s Hs. apply occurs_before_char. exact Hs.
    + apply occurs_char.
      destruct (snoc_cases syls []) as [E0 | E1]; [contradiction |].
      rewrite E1 in Hc. apply Forall_app in Hc. destruct Hc as [_ Hc].
      inversion Hc; subst. assumption.
Qed.

Lemma X9_witness :
  separator_round_trip (U := py_unicode) (utf8 "Ankara'da") (utf8 "-").
Proof.
  apply (X9_round_trip_one_character py_unicode (utf8 "Ankara'da") 45%N
           (map utf8 ["An"; "ka"; "ra"; "'da"]%string)).
  - vm_compute. reflexivity.
  - discriminate.
  - vm_compute.
    repeat constructor; intros H;
      repeat (destruct H as [H | H]; [discriminate |]); exact H.
Defined.

(** X10.  [count("")] is 0.  For a non-empty word whose lower-cased NFC
    form is not empty, [count] is the number of vowels of that form, and 1
    when it has none: it is never 0. *)
Theorem X10_count_of_vowels :
  forall U : Unicode,
    count [] = Some 0
    /\ (forall W : str,
           W <> [] ->
           str_lower (normalize_NFC W) <> [] ->
           count W =
           Some (Nat.max 1 (count_vowels (str_lower (normalize_NFC W))))).
Proof.
  intros U. split; [reflexivity |].
  intros W HW HL.
  destruct (syllabify_nonempty W None HW) as (l & _ & Hlen & E).
  unfold count. rewrite E. f_equal. rewrite Hlen.
  destruct (count_vowels (str_lower (normalize_NFC W))) as [|n] eqn:Hv.
  - rewrite (segment_no_vowel _ HL Hv). reflexivity.
  - rewrite segment_length by lia. rewrite Hv. lia.
Qed.

Lemma X10_witness :
  count (U := py_unicode) (utf8 "TBMM") = Some 1
  /\ count (U := py_unicode) (utf8 "cumhuriyet") = Some 4.
Proof.
  split.
  - apply (proj2 (X10_count_of_vowels py_unicode) (utf8 "TBMM"));
      discriminate.
  - apply (proj2 (X10_count_of_vowels py_unicode) (utf8 "cumhuriyet"));
      discriminate.
Defined.

(** X13.  For a non-empty word with a vowel, without an upper-case
    character in its NFC form and whose syllables are their own lower case,
    [analyze] returns the syllables of the boundary engine and each shape
    code holds the letter V exactly once. *)
Theorem X13_one_V_per_shape_code :
  forall (U : Unicode) (W : str),
    W <> [] ->
    Forall (fun o => chr_isupper o = false) (normalize_NFC W) ->
    Forall (fun s => str_lower s = s)
      (_segment (str_lower (normalize_NFC W))) ->
    1 <= count_vowels (str_lower (normalize_NFC W)) ->
    exists info,
      analyze W = Some info
      /\ Info.syllables info = _segment (str_lower (normalize_NFC W))
      /\ Forall (fun code => count_char letter_V code = 1)
           (Info.structure info).
Proof.
  intros U W HW Hup Hlow Hv.
  destruct (syllabify_nonempty W None HW) as (l & Er & _ & E).
  unfold _restore_case in Er.
  rewrite restore_loop_no_upper in Er by exact Hup.
  inversion Er; subst l. clear Er.
  unfold analyze. rewrite E. eexists. split; [reflexivity |].
  split; [reflexivity |]. simpl.
  pose proof (segment_one_vowel _ Hv) as H1.
  clear E. revert H1.
  generalize (_segment (str_lower (normalize_NFC W))) as segs, Hlow.
  intros segs Hlow'.
  induction Hlow' as [|s l Hs Hl IH]; intros H1; simpl; constructor.
  - rewrite struct_loop_spec, Hs. simpl. rewrite count_V_shape.
    inversion H1; subst. assumption.
  - apply IH. inversion H1; subst. assumption.
Qed.

Lemma X13_witness :
  exists info,
    analyze (U := py_unicode) (utf8 "merhaba") = Some info
    /\ Info.syllables info =
       _segment (str_lower (Unicode := py_unicode)
                   (normalize_NFC (utf8 "merhaba")))
    /\ Forall (fun code => count_char letter_V code = 1)
         (Info.structure info).
Proof.
  apply (X13_one_V_per_shape_code py_unicode (utf8 "merhaba")).
  - discriminate.
  - vm_compute. repeat constructor.
  - vm_compute. repeat constructor.
  - vm_compute. lia.
Defined.

(* --------------------------------------------------------------------- *)
(* The cursor of the case restorer                                        *)
(* --------------------------------------------------------------------- *)

Section RestorerCursor.
Context {U : Unicode}.

(** What was restored before a syllable is only extended. *)
Lemma restore_syllable_acc original syllable restored char_index :
  restore_syllable original syllable restored char_index =
  match restore_syllable original syllable [] char_index with
  | Some (r, i) => Some (restored ++ r, i)
  | None => None
  end.
Proof.
  revert restored char_index.
  induction syllable as [|c s IH]; intros restored ci; simpl.
  - rewrite app_nil_r. reflexivity.
  - destruct (ci <? length original).
    + destruct (nth_error original ci) as [o|]; [| reflexivity].
      destruct (chr_isupper o).
      * rewrite IH, (IH (chr_upper c)).
        destruct (restore_syllable original s [] (S ci)) as [[r i]|];
          [rewrite app_assoc |]; reflexivity.
      * rewrite IH, (IH [c]).
        destruct (restore_syllable original s [] (S ci)) as [[r i]|];
          [rewrite app_assoc |]; reflexivity.
    + rewrite IH, (IH [c]).
      destruct (restore_syllable original s [] ci) as [[r i]|];
        [rewrite app_assoc |]; reflexivity.
Qed.

(** Restoring two strings one after the other is restoring them at once. *)
Lemma restore_syllable_app original a b restored char_index :
  restore_syllable original (a ++ b) restored char_index =
  match restore_syllable original a restored char_index with
  | Some (r, i) => restore_syllable original b r i
  | None => None
  end.
Proof.
  revert restored char_index.
  induction a as [|c a IH]; intros restored ci; simpl; [reflexivity |].
  destruct (ci <? length original); [| apply IH].
  destruct (nth_error original ci) as [o|]; [| reflexivity].
  destruct (chr_isupper o); apply IH.
Qed.

Lemma restore_loop_concat original syllables result char_index out :
  restore_loop original syllables result char_index = Some out ->
  exists r i,
    restore_syllable original (concat syllables) [] char_index = Some (r, i)
    /\ concat out = concat result ++ r.
Proof.
  revert result char_index.
  induction syllables as [|s l IH]; intros result ci; simpl.
  - intros E. inversion E; subst. exists [], ci. rewrite app_nil_r. auto.
  - destruct (restore_syllable original s [] ci) as [[x j]|] eqn:Es;
      [| discriminate].
    intros E. destruct (IH _ _ E) as (r & i & Er & Ec).
    rewrite restore_syllable_app, Es, restore_syllable_acc, Er.
    exists (x ++ r), i. split; [reflexivity |].
    rewrite Ec, concat_app. simpl. rewrite app_nil_r, <- app_assoc.
    reflexivity.
Qed.

End RestorerCursor.

(** X14.  The case restorer does not look at the boundaries: restoring the
    syllables and concatenating them is restoring their concatenation as a
    single syllable. *)
Theorem X14_restore_ignores_boundaries :
  forall (U : Unicode) (syls : list str) (original : str) (out : list str),
    _restore_case syls original = Some out ->
    _restore_case [concat syls] original = Some [concat out].
Proof.
  intros U syls original out E. unfold _restore_case in *.
  apply restore_loop_concat in E. destruct E as (r & i & Er & Ec).
  simpl in *. rewrite Er, <- Ec. reflexivity.
Qed.

Lemma X14_witness :
  _restore_case (U := py_unicode) [utf8 "kitap"] (utf8 "KiTaP")
  = Some [concat (map utf8 ["Ki"; "TaP"]%string)].
Proof.
  apply (X14_restore_ignores_boundaries py_unicode
           (map utf8 ["ki"; "tap"]%string) (utf8 "KiTaP")).
  vm_compute. reflexivity.
Defined.

(** X15.  The type of the result: without a separator [syllabify] returns
    a list; with a separator it returns a string as soon as the word or
    the separator is not empty. *)
Theorem X15_type_of_the_result :
  forall (U : Unicode) (W sep : str),
    (exists syls, syllabify W None = Some (VList syls))
    /\ (W <> [] \/ sep <> [] ->
        exists joined, syllabify W (Some sep) = Some (VStr joined)).
Proof.
  intros U W sep. split; [apply syllabify_list |].
  intros H. destruct W as [|c W].
  - destruct H as [H | H]; [contradiction |].
    destruct sep as [|a sep]; [contradiction |].
    exists []. reflexivity.
  - destruct (syllabify_nonempty (c :: W) (Some sep)) as (l & _ & _ & E);
      [discriminate |].
    eexists. exact E.
Qed.

Lemma X15_witness :
  exists joined,
    syllabify (U := py_unicode) (utf8 "kitap") (Some []) = Some (VStr joined).
Proof.
  apply (proj2 (X15_type_of_the_result py_unicode (utf8 "kitap") [])).
  left. discriminate.
Defined.

(* --------------------------------------------------------------------- *)
(* The leftover of the loop and the last syllable                         *)
(* --------------------------------------------------------------------- *)

Lemma count_vowels_middle x v y :
  is_vowel v = true -> 1 <= count_vowels (x ++ v :: y).
Proof.
  intros Hv. rewrite count_vowels_app. unfold count_vowels at 2. simpl.
  rewrite Hv. simpl. lia.
Qed.

(** A word is cut at its last vowel in one way only. *)
Lemma last_vowel_unique a v b a' v' b' :
  a ++ v :: b = a' ++ v' :: b' ->
  is_vowel v = true -> is_vowel v' = true ->
  count_vowels b = 0 -> count_vowels b' = 0 ->
  a = a' /\ v = v' /\ b = b'.
Proof.
  intros E Hv Hv' Hb Hb'. revert a' E.
  induction a as [|c a IH]; intros [|x a'] E; simpl in E;
    inversion E; subst.
  - auto.
  - pose proof (count_vowels_middle a' v' b' Hv'). lia.
  - pose proof (count_vowels_middle a v b Hv). lia.
  - destruct (IH a' H1) as (-> & -> & ->). auto.
Qed.

(** With a vowel in the word, the loop has emitted a syllable when it
    ends, and [_segment] appends the leftover to the last one. *)
Lemma segment_merge w :
  1 <= count_vowels w ->
  let '(syllables, current) := segment_loop w [] [] in
  syllables <> []
  /\ _segment w = removelast syllables ++ [last syllables [] ++ current].
Proof.
  intros Hv. unfold _segment.
  pose proof (segment_loop_length w [] []) as L.
  destruct (segment_loop w [] []) as [sy cu]. simpl in L.
  assert (Hne : sy <> []) by (intros ->; simpl in L; lia).
  split; [exact Hne |].
  destruct cu as [|x cu].
  - rewrite app_nil_r. apply app_removelast_last. exact Hne.
  - destruct sy; [contradiction | reflexivity].
Qed.

(** The last syllable holds the last vowel of the word and every character
    after it. *)
Lemma segment_last_syllable w pre v tail :
  w = pre ++ v :: tail ->
  is_vowel v = true ->
  count_vowels tail = 0 ->
  exists onset, last (_segment w) [] = onset ++ v :: tail.
Proof.
  intros Ew Hv Ht.
  assert (Hw : 1 <= count_vowels w)
    by (rewrite Ew; apply count_vowels_middle; exact Hv).
  destruct (segment_structure w) as (_ & Hla & _).
  destruct (Hla Hw) as (s & leftover & El & Hs & Hl).
  destruct Hs as (onset & v' & coda & -> & _ & Hv' & Hc).
  pose proof (segment_concat w) as C.
  pose proof (segment_length w Hw) as L.
  destruct (snoc_cases (_segment w) []) as [E0 | E1].
  { rewrite E0 in L. simpl in L. lia. }
  rewrite E1, concat_app, El in C. simpl in C. rewrite app_nil_r in C.
  assert (Hcl : count_vowels (coda ++ leftover) = 0).
  { rewrite count_vowels_app, Hl.
    destruct Hc as [-> | (c & -> & Hc)]; [reflexivity |].
    unfold count_vowels. simpl. rewrite (consonant_not_vowel _ Hc).
    reflexivity. }
  assert (E : (concat (removelast (_segment w)) ++ onset)
              ++ v' :: (coda ++ leftover) = pre ++ v :: tail).
  { rewrite <- Ew. symmetry. etransitivity; [symmetry; exact C |].
    rewrite <- !app_assoc. reflexivity. }
  destruct (last_vowel_unique _ _ _ _ _ _ E Hv' Hv Hcl Ht) as (_ & -> & <-).
  exists onset. rewrite El, <- app_assoc. reflexivity.
Qed.

(** C10.  For a word with a vowel, the boundary engine emits one syllable
    for each vowel and none of its syllables is empty.  The leftover of the
    loop makes no syllable of its own and is not lost: [_segment] appends
    it to the last syllable emitted, so that the syllables concatenate to
    the word and the last syllable holds the last vowel and every
    character after it.  Hence for a non-empty word whose lower-cased NFC
    form holds [n >= 1] vowels, [syllabify] returns [n] syllables, none of
    them empty (upper-casing a character never giving the empty string). *)
Theorem C10_one_syllable_per_vowel :
  (forall w : str,
      1 <= count_vowels w ->
      length (_segment w) = count_vowels w
      /\ Forall (fun s => s <> []) (_segment w)
      /\ (let '(emitted, leftover) := segment_loop w [] [] in
          length emitted = count_vowels w
          /\ _segment w = removelast emitted ++ [last emitted [] ++ leftover])
      /\ concat (_segment w) = w
      /\ (forall (pre : str) (v : char) (tail : str),
             w = pre ++ v :: tail ->
             is_vowel v = true ->
             count_vowels tail = 0 ->
             exists onset, last (_segment w) [] = onset ++ v :: tail))
  /\ (forall (U : Unicode) (W : str),
         W <> [] ->
         1 <= count_vowels (str_lower (normalize_NFC W)) ->
         exists syls,
           syllabify W None = Some (VList syls)
           /\ length syls = count_vowels (str_lower (normalize_NFC W))
           /\ ((forall c, chr_upper c <> []) ->
               Forall (fun s => s <> []) syls)).
Proof.
  split.
  - intros w Hv. split; [apply segment_length; exact Hv |].
    split; [apply segment_nonempty |]. split; [| split].
    + pose proof (segment_merge w Hv) as M.
      pose proof (segment_loop_length w [] []) as L.
      destruct (segment_loop w [] []) as [sy cu]. simpl in L.
      split; [exact L | apply M].
    + apply segment_concat.
    + intros pre v tail. apply segment_last_syllable.
  - intros U W HW Hv.
    destruct (syllabify_nonempty W None HW) as (syls & Er & Hlen & E).
    exists syls. split; [exact E |]. split.
    + rewrite Hlen. apply segment_length. exact Hv.
    + intros Hup. unfold _restore_case in Er.
      apply (restore_loop_nonempty _ _ _ _ _ Hup
               (segment_nonempty _) (Forall_nil _) Er).
Qed.

Lemma C10_witness :
  (length (_segment (utf8 "dörtlük")) = 2
   /\ exists onset,
        last (_segment (utf8 "dörtlük")) [] = onset ++ utf8 "ük")
  /\ (exists syls,
         syllabify (U := py_unicode) (utf8 "İstanbul") None
         = Some (VList syls)
         /\ length syls = 3
         /\ Forall (fun s => s <> []) syls).
Proof.
  split.
  - destruct (proj1 C10_one_syllable_per_vowel (utf8 "dörtlük"))
      as (L & _ & _ & _ & Hlast).
    + vm_compute. lia.
    + split; [exact L |].
      apply (Hlast (utf8 "dörtl") 252%N (utf8 "k")); reflexivity.
  - destruct (proj2 C10_one_syllable_per_vowel py_unicode (utf8 "İstanbul"))
      as (syls & E & L & Hne).
    + discriminate.
    + vm_compute. lia.
    + exists syls. split; [exact E |]. split; [exact L |].
      apply Hne. exact py_upper_nonempty.
Defined.
